(** * Nearest-neighbour transfer coefficients (SU2, CNearestNeighbor.cpp)

    A shallow embedding of [CNearestNeighbor::Set_TransferCoeff] and of the
    library routine it relies on, followed by the properties of the engine.

    Conventions of the embedding.
    - [su2double] is modelled by the exact rationals [Q]: sums, quotients and
      comparisons are exact, rounding and overflow of the IEEE type are
      outside the model.  The only way a value can fail to be finite is a
      division whose divisor is zero; every division reports it.
    - Buffer sizes and buffer indices ([unsigned long] in the source) are
      natural numbers: a buffer that was allocated has fewer than 2^64
      elements, so this arithmetic does not wrap.  The two 32-bit quantities
      of the source keep their width: the counter [iDonor] (an [int]) and the
      field [pidx] (an [unsigned]).
    - [std::vector::operator[]] does not check its index.  An access outside
      the vector is recorded in a flag and execution goes on as the source
      does: a load yields [DonorInfo()] and a store is dropped.  Once the flag
      is cleared the values computed are meaningless. *)

From Stdlib Require Import List ZArith QArith Qabs Lia ZifyNat Lqa Bool Arith.
From Stdlib Require Import Permutation Sorted.
Import ListNotations.

Local Open Scope nat_scope.

(* ------------------------------------------------------------------ *)
(** * Machine integers and floating point *)

Definition su2double : Type := Q.

(** [numeric_limits<passivedouble>::epsilon()], the binary64 value 2^-52. *)
Definition passivedouble_epsilon : su2double := (1 # 4503599627370496)%Q.

Definition INT_MAX : Z := 2147483647.

(** Conversion to [int] (two's complement, 32 bits). *)
Definition to_int (z : Z) : Z := ((z + 2147483648) mod 4294967296 - 2147483648)%Z.

(** Conversion to [unsigned] (32 bits). *)
Definition to_unsigned (z : Z) : Z := (z mod 4294967296)%Z.

(** [a < b] on [su2double]. *)
Definition su2_lt (a b : su2double) : bool := negb (Qle_bool b a).

(** [a / b]; the flag is cleared when the divisor is zero (IEEE would give an
    infinity or a NaN there). *)
Definition su2_div (a b : su2double) : su2double * bool :=
  ((a / b)%Q, negb (Qeq_bool b 0)).

(* ------------------------------------------------------------------ *)
(** * Arrays *)

Fixpoint update {A : Type} (l : list A) (i : nat) (x : A) : list A :=
  match l, i with
  | [], _ => []
  | _ :: l', O => x :: l'
  | y :: l', S i' => y :: update l' i' x
  end.

(* ------------------------------------------------------------------ *)
(** * The C++ library: [std::partial_sort]

    [partial_sort(first, middle, last, comp)] as libstdc++ implements it
    (bits/stl_algo.h, bits/stl_heap.h): a heap of the [middle - first]
    smallest elements is built in front ([__heap_select]) and then sorted
    ([__sort_heap]).  Ranges are prefixes [0, len) of the list. *)

Module StdLib.
Section Heap.
Context {A : Type} (comp : A -> A -> bool).

(** [__push_heap(first, holeIndex, topIndex, value, comp)] *)
Fixpoint push_heap (fuel : nat) (a : list A) (holeIndex topIndex : nat) (value : A)
  : list A :=
  match fuel with
  | O => update a holeIndex value
  | S fuel' =>
      let parent := (holeIndex - 1) / 2 in
      match nth_error a parent with
      | Some p =>
          if (topIndex <? holeIndex) && comp p value
          then push_heap fuel' (update a holeIndex p) parent topIndex value
          else update a holeIndex value
      | None => update a holeIndex value
      end
  end.

(** The [while] loop of [__adjust_heap]: the hole moves down to the larger
    child as long as the node has two children. *)
Fixpoint adjust_heap_loop (fuel : nat) (a : list A) (holeIndex secondChild len : nat)
  : list A * nat * nat :=
  match fuel with
  | O => (a, holeIndex, secondChild)
  | S fuel' =>
      if secondChild <? (len - 1) / 2 then
        let secondChild := 2 * (secondChild + 1) in
        match nth_error a secondChild, nth_error a (secondChild - 1) with
        | Some r, Some l =>
            let secondChild := if comp r l then secondChild - 1 else secondChild in
            match nth_error a secondChild with
            | Some c =>
                adjust_heap_loop fuel' (update a holeIndex c) secondChild secondChild len
            | None => (a, holeIndex, secondChild)
            end
        | _, _ => (a, holeIndex, secondChild)
        end
      else (a, holeIndex, secondChild)
  end.

(** [__adjust_heap(first, holeIndex, len, value, comp)] *)
Definition adjust_heap (a : list A) (holeIndex len : nat) (value : A) : list A :=
  let topIndex := holeIndex in
  let '(a, holeIndex, secondChild) := adjust_heap_loop len a holeIndex holeIndex len in
  let '(a, holeIndex) :=
    if Nat.even len && (secondChild =? (len - 2) / 2) then
      let secondChild := 2 * (secondChild + 1) in
      match nth_error a (secondChild - 1) with
      | Some c => (update a holeIndex c, secondChild - 1)
      | None => (a, holeIndex)
      end
    else (a, holeIndex) in
  push_heap len a holeIndex topIndex value.

(** The loop of [__make_heap], from [parent] down to 0. *)
Fixpoint make_heap_loop (parent : nat) (a : list A) (len : nat) : list A :=
  let a' := match nth_error a parent with
            | Some value => adjust_heap a parent len value
            | None => a
            end in
  match parent with
  | O => a'
  | S parent' => make_heap_loop parent' a' len
  end.

(** [__make_heap(first, first + len, comp)] *)
Definition make_heap (a : list A) (len : nat) : list A :=
  if len <? 2 then a else make_heap_loop ((len - 2) / 2) a len.

(** [__pop_heap(first, first + len, result, comp)] *)
Definition pop_heap (a : list A) (len result : nat) : list A :=
  match nth_error a result, nth_error a 0 with
  | Some value, Some top => adjust_heap (update a result top) 0 len value
  | _, _ => a
  end.

(** [__heap_select(first, first + middle, last, comp)]: the loop over
    [i = middle, ..., last - 1]. *)
Definition heap_select (a : list A) (middle : nat) : list A :=
  fold_left
    (fun a i =>
       match nth_error a i, nth_error a 0 with
       | Some x, Some top => if comp x top then pop_heap a middle i else a
       | _, _ => a
       end)
    (seq middle (length a - middle))
    (make_heap a middle).

(** [__sort_heap(first, first + len, comp)] *)
Fixpoint sort_heap (a : list A) (len : nat) : list A :=
  match len with
  | S (S _ as last) => sort_heap (pop_heap a last last) last
  | _ => a
  end.

(** [std::partial_sort(begin, begin + middle, end, comp)].  The call is
    defined for [1 <= middle <= length a]; the program never makes it with
    [middle = 0]. *)
Definition partial_sort (middle : nat) (a : list A) : list A :=
  match middle with
  | O => a
  | _ => sort_heap (heap_select a middle) middle
  end.
End Heap.

Section Sorting.
Context {A : Type} (comp : A -> A -> bool).



End Sorting.
End StdLib.

(** What the C++ standard promises of [partial_sort(first, first + middle,
    last, comp)] when [middle <= last - first]: the range is permuted, its
    first [middle] elements are sorted with respect to [comp], and no element
    left behind precedes one of them.  The order of equivalent elements is
    not specified. *)
Definition sorted_wrt {A : Type} (comp : A -> A -> bool) (l : list A) : Prop :=
  StronglySorted (fun x y => comp y x = false) l.

Definition partial_sort_post {A : Type} (comp : A -> A -> bool)
  (middle : nat) (a a' : list A) : Prop :=
  Permutation a a' /\
  sorted_wrt comp (firstn middle a') /\
  Forall (fun y => Forall (fun x => comp y x = false) (firstn middle a'))
         (skipn middle a').

Definition partial_sort_conforms {A : Type} (comp : A -> A -> bool)
  (psort : nat -> list A -> list A) : Prop :=
  forall middle a, middle <= length a -> partial_sort_post comp middle a (psort middle a).

(** ** Heaps

    What the loops of bits/stl_heap.h keep.  The nodes of the heap in
    [0, len) are the indices; the parent of [i > 0] is [(i - 1) / 2]. *)

Section HeapShape.
Context {A : Type} (comp : A -> A -> bool).

(** [a] is a heap on [0, len) as far as the children of the nodes from [s]
    on are concerned: no such child exceeds its parent. *)
Definition heap_from (s : nat) (a : list A) (len : nat) : Prop :=
  forall i x p, 0 < i -> i < len -> s <= (i - 1) / 2 ->
    nth_error a i = Some x -> nth_error a ((i - 1) / 2) = Some p ->
    comp p x = false.

(** The same with a hole: the node [hole] is left out as a parent, and its
    children are compared with its own parent instead. *)
Definition heap_hole (h hole : nat) (a : list A) (len : nat) : Prop :=
  (forall i x p, 0 < i -> i < len -> h <= (i - 1) / 2 -> (i - 1) / 2 <> hole ->
     nth_error a i = Some x -> nth_error a ((i - 1) / 2) = Some p ->
     comp p x = false) /\
  (h < hole ->
   forall i x g, 0 < i -> i < len -> (i - 1) / 2 = hole ->
     nth_error a i = Some x -> nth_error a ((hole - 1) / 2) = Some g ->
     comp g x = false).

(** No child of [hole] exceeds [v]. *)
Definition kids_le (v : A) (hole : nat) (a : list A) (len : nat) : Prop :=
  forall i x, 0 < i -> i < len -> (i - 1) / 2 = hole ->
    nth_error a i = Some x -> comp v x = false.

(** The nodes of the subtree of [h]. *)
Inductive below (h : nat) : nat -> Prop :=
| below_refl : below h h
| below_left i : below h i -> below h (2 * i + 1)
| below_right i : below h i -> below h (2 * i + 2).

(** What the loops of [__adjust_heap] keep while the hole moves: [a] with the
    hole filled is the array [a0] with [x] at [h], up to a permutation of
    [0, len). *)
Definition hole_inv (a0 : list A) (h len : nat) (a : list A) (hole : nat) : Prop :=
  len <= length a /\ h <= hole /\ hole < len /\ below h hole /\
  heap_hole h hole a len /\
  (forall x, Permutation (update a hole x) (update a0 h x)) /\
  skipn len a = skipn len a0.
End HeapShape.

(* ------------------------------------------------------------------ *)
(** * Data model *)

(** [struct DonorInfo]: distance, donor point, donor rank. *)
Record DonorInfo : Type := mkDonorInfo {
  dist : su2double;
  pidx : Z;          (* unsigned *)
  proc : Z           (* int *)
}.

(** [DonorInfo()], the value of the default arguments. *)
Definition DonorInfo0 : DonorInfo := mkDonorInfo 0%Q 0%Z 0%Z.

(** The comparison handed to [partial_sort]:
    [[](const DonorInfo& a, const DonorInfo& b){return a.dist < b.dist;}] *)
Definition closer (a b : DonorInfo) : bool := su2_lt (dist a) (dist b).

(** A point of a geometry, as far as the engine reads it. *)
Record CPoint : Type := mkCPoint {
  Domain : bool;              (* GetDomain():      owned by this rank *)
  GlobalIndex : Z;            (* GetGlobalIndex(): identifier across ranks *)
  Coord : list su2double      (* GetCoord() *)
}.

(** A boundary vertex with its transfer record: three arrays of equal length,
    [None] in a slot that was allocated and not assigned yet. *)
Record CVertex : Type := mkCVertex {
  Node : nat;                               (* GetNode() *)
  Donor_Points : list (option Z);
  Donor_Proc : list (option Z);
  Donor_Coeff : list (option su2double)
}.

Record CGeometry : Type := mkCGeometry {
  nDim : nat;                               (* GetnDim() *)
  node : nat -> CPoint;                     (* node[iPoint] *)
  vertex : list (list CVertex)              (* vertex[iMarker][iVertex] *)
}.

(** [GetnVertex(iMarker)] *)
Definition GetnVertex (g : CGeometry) (iMarker : Z) : nat :=
  length (nth (Z.to_nat iMarker) (vertex g) []).

(** What the engine reads of a zone's configuration.  [ZoneInterfaceMarker i]
    is the marker of this zone that carries interface [i] on this rank, as
    [Find_InterfaceMarker] resolves it, or -1. *)
Record CConfig : Type := mkCConfig {
  NumNearestNeighbors : Z;                  (* unsigned short *)
  Marker_n_ZoneInterface : Z;               (* unsigned short *)
  ZoneInterfaceMarker : Z -> Z
}.

(** Modelled from the spec: [CInterpolator::Find_InterfaceMarker] is not part
    of the sources at hand.  Section 4.1: the marker of the zone that carries
    the interface, or the sentinel -1 when this rank has none; the
    configuration decides. *)
Definition Find_InterfaceMarker (config : CConfig) (iMarkerInt : Z) : Z :=
  ZoneInterfaceMarker config iMarkerInt.

(** Modelled from the spec: [CInterpolator::CheckInterfaceBoundary] is not part
    of the sources at hand.  Section 4.1: the marker is skipped if neither
    zone's marker resolves to a real value. *)
Definition CheckInterfaceBoundary (markDonor markTarget : Z) : bool :=
  negb ((markDonor =? -1)%Z && (markTarget =? -1)%Z).

(** Modelled from the spec: the transfer record interface of a target vertex
    ([CVertex::Allocate_DonorInfo], [SetInterpDonorPoint],
    [SetInterpDonorProcessor], [SetDonorCoeff]) is not part of the sources at
    hand.  Section 6: allocate a record with exactly [nDonor] slots; set slot
    [i]'s donor identifier, donor rank and weight. *)
Definition Allocate_DonorInfo (nDonor : nat) (v : CVertex) : CVertex :=
  mkCVertex (Node v) (repeat None nDonor) (repeat None nDonor) (repeat None nDonor).

Definition SetInterpDonorPoint (i : nat) (x : Z) (v : CVertex) : CVertex :=
  mkCVertex (Node v) (update (Donor_Points v) i (Some x)) (Donor_Proc v) (Donor_Coeff v).

Definition SetInterpDonorProcessor (i : nat) (x : Z) (v : CVertex) : CVertex :=
  mkCVertex (Node v) (Donor_Points v) (update (Donor_Proc v) i (Some x)) (Donor_Coeff v).

Definition SetDonorCoeff (i : nat) (x : su2double) (v : CVertex) : CVertex :=
  mkCVertex (Node v) (Donor_Points v) (Donor_Proc v) (update (Donor_Coeff v) i (Some x)).

(** The pointer [GetCoord()] of a point. *)
Definition coord_ptr (p : CPoint) : nat -> su2double :=
  fun iDim => nth iDim (Coord p) 0%Q.

(** Modelled from the spec: [PointsSquareDistance] is not part of the sources
    at hand.  Section 4.4, step 2: the squared Euclidean distance of two
    points given by pointers to [nDim] coordinates. *)
Definition PointsSquareDistance (nDim : nat) (point_i point_j : nat -> su2double)
  : su2double :=
  fold_left (fun d iDim =>
               (d + (point_j iDim - point_i iDim) * (point_j iDim - point_i iDim))%Q)
            (seq 0 nDim) 0%Q.

(** The members that the two collectives leave behind:
    [Buffer_Receive_nVertex_Donor] (one count per rank, so its length is
    [nProcessor]), [MaxLocalVertex_Donor], and the two gathered arrays, laid
    out in slices of [MaxLocalVertex_Donor] slots per rank. *)
Record Gathered : Type := mkGathered {
  Buffer_Receive_nVertex_Donor : list nat;
  MaxLocalVertex_Donor : nat;
  Buffer_Receive_Coord : list su2double;
  Buffer_Receive_GlobalPoint : list Z
}.

Definition nProcessor (G : Gathered) : nat := length (Buffer_Receive_nVertex_Donor G).

(** [accumulate(Buffer_Receive_nVertex_Donor,
                Buffer_Receive_nVertex_Donor + nProcessor, 0ul)] *)
Definition nPossibleDonor (G : Gathered) : nat :=
  fold_left Nat.add (Buffer_Receive_nVertex_Donor G) 0.

(* ------------------------------------------------------------------ *)
(** * [std::vector<DonorInfo>] *)

(** [donorInfo.resize(n)]: the front is kept, new elements are [DonorInfo()]. *)
Definition resize (n : nat) (v : list DonorInfo) : list DonorInfo :=
  firstn n v ++ repeat DonorInfo0 (n - length v).

(** [donorInfo[i]] read, [i] an [unsigned long]. *)
Definition vec_load (v : list DonorInfo) (i : nat) : DonorInfo * bool :=
  match nth_error v i with
  | Some d => (d, true)
  | None => (DonorInfo0, false)
  end.

(** [donorInfo[i] = d], [i] an [unsigned long]. *)
Definition vec_store (v : list DonorInfo) (i : nat) (d : DonorInfo)
  : list DonorInfo * bool :=
  if i <? length v then (update v i d, true) else (v, false).

(** [donorInfo[i] = d] with [i] an [int]: a negative index converts to an
    [unsigned long] beyond any vector. *)
Definition vec_store_int (v : list DonorInfo) (i : Z) (d : DonorInfo)
  : list DonorInfo * bool :=
  if (0 <=? i)%Z then vec_store v (Z.to_nat i) d else (v, false).

(* ------------------------------------------------------------------ *)
(** * The engine *)

(** What an observer of the run can see besides the transfer records. *)
Inductive event : Type :=
| EvDetermine_ArraySize (markDonor markTarget : Z) (nVertexDonor : nat)
| EvNewBuffers (nSend_Coord nSend_GlobalPoint nReceive_Coord nReceive_GlobalPoint : nat)
| EvCollect_VertexInfo (markDonor markTarget : Z) (nVertexDonor : nat)
| EvScan (markTarget : Z) (iVertexTarget : nat)
| EvAllocate_DonorInfo (markTarget : Z) (iVertexTarget : nat) (nDonor : nat)
| EvDeleteBuffers.

(** The state of one thread inside the loop over the target vertices. *)
Record thread_state : Type := mkThread {
  donorInfo : list DonorInfo;     (* DonorInfoVec[omp_get_thread_num()] *)
  in_bounds : bool;               (* no access outside donorInfo so far *)
  finite : bool;                  (* no division by zero so far *)
  trace : list event
}.

(** The other ranks, as the two collectives show them.  [peers i] lists, rank
    by rank, the donor points of interface [i]; the entry of this rank is
    replaced by its own donor vertices.  [junkCoord] and [junkPoint] are what
    the receive buffers hold in the slots that no rank filled. *)
Record Communicator : Type := mkComm {
  rank : nat;
  peers : Z -> list (list CPoint);
  junkCoord : nat -> su2double;
  junkPoint : nat -> Z
}.

Section Engine.
(** [partial_sort comp k v] stands for
    [std::partial_sort(v.begin(), v.begin() + k, v.end(), comp)]. *)
Variable partial_sort :
  (DonorInfo -> DonorInfo -> bool) -> nat -> list DonorInfo -> list DonorInfo.

(** The candidate built for slot [jVertex] of rank [iProcessor]
    (lines 116-121). *)
Definition candidate (nDim : nat) (G : Gathered) (Coord_i : nat -> su2double)
  (iProcessor jVertex : nat) : DonorInfo :=
  let idx := iProcessor * MaxLocalVertex_Donor G + jVertex in
  let pGlobalPoint := nth idx (Buffer_Receive_GlobalPoint G) 0%Z in
  let Coord_j := fun iDim => nth (idx * nDim + iDim) (Buffer_Receive_Coord G) 0%Q in
  let dist2 := PointsSquareDistance nDim Coord_i Coord_j in
  mkDonorInfo dist2 (to_unsigned pGlobalPoint) (Z.of_nat iProcessor).

(** "Compute all distances" (lines 113-123). *)
Definition compute_all_distances (nDim : nat) (G : Gathered)
  (Coord_i : nat -> su2double) (donorInfo : list DonorInfo)
  : list DonorInfo * Z * bool :=
  fold_left
    (fun st iProcessor =>
       fold_left
         (fun '(donorInfo, iDonor, ok) jVertex =>
            let '(donorInfo', okw) :=
              vec_store_int donorInfo iDonor (candidate nDim G Coord_i iProcessor jVertex) in
            (donorInfo', to_int (iDonor + 1), ok && okw))
         (seq 0 (nth iProcessor (Buffer_Receive_nVertex_Donor G) 0))
         st)
    (seq 0 (nProcessor G))
    (donorInfo, 0%Z, true).

(** "Find k closest points" (lines 126-127).  [begin() + nDonor] has to lie
    inside the vector. *)
Definition find_k_closest (nDonor : nat) (donorInfo : list DonorInfo)
  : list DonorInfo * bool :=
  if nDonor <=? length donorInfo
  then (partial_sort closer nDonor donorInfo, true)
  else (donorInfo, false).

(** "Compute interpolation numerators and denominator" (lines 130-134). *)
Definition compute_numerators (eps : su2double) (nDonor : nat)
  (donorInfo : list DonorInfo) : list DonorInfo * su2double * bool * bool :=
  fold_left
    (fun '(donorInfo, denom, ok, fin) iDonor =>
       let '(d, okr) := vec_load donorInfo iDonor in
       let '(w, finw) := su2_div 1%Q (dist d + eps)%Q in
       let '(donorInfo', okw) :=
         vec_store donorInfo iDonor (mkDonorInfo w (pidx d) (proc d)) in
       (donorInfo', (denom + w)%Q, ok && okr && okw, fin && finw))
    (seq 0 nDonor)
    (donorInfo, 0%Q, true, true).

(** "Set interpolation coefficients", the loop of lines 139-143. *)
Definition set_coefficients (nDonor : nat) (donorInfo : list DonorInfo)
  (denom : su2double) (target_vertex : CVertex) : CVertex * bool * bool :=
  fold_left
    (fun '(v, ok, fin) iDonor =>
       let '(d, okr) := vec_load donorInfo iDonor in
       let v := SetInterpDonorPoint iDonor (pidx d) v in
       let v := SetInterpDonorProcessor iDonor (proc d) v in
       let '(w, finw) := su2_div (dist d) denom in
       let v := SetDonorCoeff iDonor w v in
       (v, ok && okr, fin && finw))
    (seq 0 nDonor)
    (target_vertex, true, true).

(** The body of the loop over the target vertices (lines 104-143) for
    [target_vertex = target_geometry->vertex[markTarget][iVertexTarget]]. *)
Definition vertex_body (nDonor : nat) (eps : su2double) (nDim : nat) (G : Gathered)
  (target_node : nat -> CPoint) (markTarget : Z) (iVertexTarget : nat)
  (target_vertex : CVertex) (st : thread_state) : CVertex * thread_state :=
  let Point_Target := Node target_vertex in
  if negb (Domain (target_node Point_Target)) then (target_vertex, st)
  else
    let Coord_i := coord_ptr (target_node Point_Target) in
    let '(donorInfo1, _, ok1) := compute_all_distances nDim G Coord_i (donorInfo st) in
    let '(donorInfo2, ok2) := find_k_closest nDonor donorInfo1 in
    let '(donorInfo3, denom, ok3, fin3) := compute_numerators eps nDonor donorInfo2 in
    let v := Allocate_DonorInfo nDonor target_vertex in
    let '(v, ok4, fin4) := set_coefficients nDonor donorInfo3 denom v in
    (v,
     mkThread donorInfo3
              (in_bounds st && ok1 && ok2 && ok3 && ok4)
              (finite st && fin3 && fin4)
              (trace st ++ [EvScan markTarget iVertexTarget;
                            EvAllocate_DonorInfo markTarget iVertexTarget nDonor])).

(** The loop over [iVertexTarget] (line 102), from [iVertexTarget] on, run by
    one thread.  With more threads every vertex is still handled by this
    body, on the working array of whichever thread picks it up. *)
Fixpoint vertex_loop (nDonor : nat) (eps : su2double) (nDim : nat) (G : Gathered)
  (target_node : nat -> CPoint) (markTarget : Z) (iVertexTarget : nat)
  (vs : list CVertex) (st : thread_state) : list CVertex * thread_state :=
  match vs with
  | [] => ([], st)
  | target_vertex :: vs' =>
      let '(v, st) :=
        vertex_body nDonor eps nDim G target_node markTarget iVertexTarget
                    target_vertex st in
      let '(vs'', st) :=
        vertex_loop nDonor eps nDim G target_node markTarget (S iVertexTarget) vs' st in
      (v :: vs'', st)
  end.

(** Modelled from the spec: [Determine_ArraySize] is not part of the sources
    at hand.  Section 4.2: every rank learns the count of every rank and
    their maximum. *)
Definition Determine_ArraySize (world : list (list CPoint)) : list nat * nat :=
  let counts := map (@length CPoint) world in
  (counts, fold_left Nat.max counts 0).

(** Modelled from the spec: [Collect_VertexInfo] is not part of the sources
    at hand.  Section 4.3: every rank contributes its coordinates ([nDim]
    per point) and identifiers, padded to the maximum count; every rank
    receives the slices of all ranks, in rank order. *)
Definition Collect_VertexInfo (nDim : nat) (world : list (list CPoint))
  (Max : nat) (junkC : nat -> su2double) (junkP : nat -> Z)
  : list su2double * list Z :=
  (flat_map (fun slice =>
               flat_map (fun p => map (fun iDim => nth iDim (Coord p) 0%Q) (seq 0 nDim))
                        slice
               ++ map junkC (seq 0 ((Max - length slice) * nDim)))
            world,
   flat_map (fun slice =>
               map GlobalIndex slice ++ map junkP (seq 0 (Max - length slice)))
            world).

(** The donor points this rank contributes for marker [markDonor]. *)
Definition local_donors (donor_geometry : CGeometry) (markDonor : Z) (nVertexDonor : nat)
  : list CPoint :=
  map (fun v => node donor_geometry (Node v))
      (firstn nVertexDonor (nth (Z.to_nat markDonor) (vertex donor_geometry) [])).

(** What both collectives deliver when the ranks hold the donor points
    [world] (one list per rank). *)
Definition collect (nDim : nat) (world : list (list CPoint))
  (junkC : nat -> su2double) (junkP : nat -> Z) : Gathered :=
  let '(counts, Max) := Determine_ArraySize world in
  let '(coords, points) := Collect_VertexInfo nDim world Max junkC junkP in
  mkGathered counts Max coords points.

(** What they deliver on this rank for interface [iMarkerInt]. *)
Definition gather (comm : Communicator) (nDim : nat) (iMarkerInt : Z)
  (local : list CPoint) : Gathered :=
  collect nDim (update (peers comm iMarkerInt) (rank comm) local)
          (junkCoord comm) (junkPoint comm).

(** The state of the run: the vertices of the target geometry, and the
    working array, flags and trace of the thread. *)
Record engine_state : Type := mkEngine {
  target_vertices : list (list CVertex);
  thread : thread_state
}.

Definition log (e : list event) (st : thread_state) : thread_state :=
  mkThread (donorInfo st) (in_bounds st) (finite st) (trace st ++ e).

(** The body of the loop over the interface markers (lines 67-151). *)
Definition marker_body (nDonor : nat) (eps : su2double) (comm : Communicator)
  (config_donor config_target : CConfig) (donor_geometry target_geometry : CGeometry)
  (iMarkerInt : Z) (st : engine_state) : engine_state :=
  let nDim := nDim donor_geometry in
  let markDonor := Find_InterfaceMarker config_donor iMarkerInt in
  let markTarget := Find_InterfaceMarker config_target iMarkerInt in
  if negb (CheckInterfaceBoundary markDonor markTarget) then st
  else
    let nVertexDonor :=
      if (markDonor =? -1)%Z then 0 else GetnVertex donor_geometry markDonor in
    let nVertexTarget :=
      if (markTarget =? -1)%Z then 0
      else length (nth (Z.to_nat markTarget) (target_vertices st) []) in
    let G := gather comm nDim iMarkerInt (local_donors donor_geometry markDonor nVertexDonor) in
    let nPossibleDonor := nPossibleDonor G in
    let Max := MaxLocalVertex_Donor G in
    let th := log [EvDetermine_ArraySize markDonor markTarget nVertexDonor;
                   EvNewBuffers (Max * nDim) Max
                                (nProcessor G * Max * nDim) (nProcessor G * Max);
                   EvCollect_VertexInfo markDonor markTarget nVertexDonor]
                  (thread st) in
    let th := mkThread (resize nPossibleDonor (donorInfo th))
                       (in_bounds th) (finite th) (trace th) in
    let vs := firstn nVertexTarget (nth (Z.to_nat markTarget) (target_vertices st) []) in
    let '(vs', th) :=
      vertex_loop nDonor eps nDim G (node target_geometry) markTarget 0 vs th in
    mkEngine
      (if (markTarget =? -1)%Z then target_vertices st
       else update (target_vertices st) (Z.to_nat markTarget) vs')
      (log [EvDeleteBuffers] th).

(** The number of donors asked for (line 51). *)
Definition nDonor_of (config_donor : CConfig) : Z :=
  Z.max (NumNearestNeighbors config_donor) 1.

(** [CNearestNeighbor::Set_TransferCoeff].  The working array starts empty,
    the flags set, the trace empty. *)
Definition Set_TransferCoeff (comm : Communicator)
  (config_donor config_target : CConfig) (donor_geometry target_geometry : CGeometry)
  : engine_state :=
  let nDonor := Z.to_nat (nDonor_of config_donor) in
  let eps := passivedouble_epsilon in
  let nMarkerInt := Z.to_nat (Marker_n_ZoneInterface config_donor / 2) in
  fold_left
    (fun st iMarkerInt =>
       marker_body nDonor eps comm config_donor config_target
                   donor_geometry target_geometry (Z.of_nat iMarkerInt) st)
    (seq 1 nMarkerInt)
    (mkEngine (vertex target_geometry) (mkThread [] true true [])).
End Engine.

(* ------------------------------------------------------------------ *)
(** * Reading the loops *)

(** The slots [(iProcessor, jVertex)] that the two loops of lines 113-114
    visit, in the order they visit them. *)
Definition scan_order (G : Gathered) : list (nat * nat) :=
  flat_map (fun iProcessor =>
              map (pair iProcessor)
                  (seq 0 (nth iProcessor (Buffer_Receive_nVertex_Donor G) 0)))
           (seq 0 (nProcessor G)).

(** The candidates in scan order. *)
Definition candidates (nDim : nat) (G : Gathered) (Coord_i : nat -> su2double)
  : list DonorInfo :=
  map (fun s => candidate nDim G Coord_i (fst s) (snd s)) (scan_order G).

(** One pass of the innermost loop body: [donorInfo[iDonor++] = c]. *)
Definition store_next (st : list DonorInfo * Z * bool) (c : DonorInfo)
  : list DonorInfo * Z * bool :=
  let '(donorInfo, iDonor, ok) := st in
  let '(donorInfo', okw) := vec_store_int donorInfo iDonor c in
  (donorInfo', to_int (iDonor + 1), ok && okw).

(** The numerator that line 132 puts in place of a distance. *)
Definition numerator (eps : su2double) (d : DonorInfo) : DonorInfo :=
  mkDonorInfo (1 / (dist d + eps))%Q (pidx d) (proc d).

(** The sum accumulated by [denom += ...], from [0.0]. *)
Definition Qsum (l : list su2double) : su2double := fold_left Qplus l 0%Q.

(** The weights held by a record whose slots were all assigned. *)
Definition stored (l : list su2double) : list (option su2double) := map Some l.

(** The denominator of line 133 for the donors [sel]. *)
Definition denominator (eps : su2double) (sel : list DonorInfo) : su2double :=
  Qsum (map (fun d => dist (numerator eps d)) sel).

Section Selected.
Variable partial_sort :
  (DonorInfo -> DonorInfo -> bool) -> nat -> list DonorInfo -> list DonorInfo.

(** The donors selected for a target point, closest first. *)
Definition selected (nDonor nDim : nat) (G : Gathered) (target : CPoint)
  : list DonorInfo :=
  firstn nDonor (partial_sort closer nDonor (candidates nDim G (coord_ptr target))).

(** The donors left behind by the selection. *)
Definition rejected (nDonor nDim : nat) (G : Gathered) (target : CPoint)
  : list DonorInfo :=
  skipn nDonor (partial_sort closer nDonor (candidates nDim G (coord_ptr target))).
End Selected.




(** The order in which the scan visits the slots: by rank, then by slot. *)
Definition scan_before (s s' : nat * nat) : Prop :=
  fst s < fst s' \/ (fst s = fst s' /\ snd s < snd s').

(** The vertex [iVertex] of marker [iMarker] in a table of vertices. *)
Definition vertex_at (vs : list (list CVertex)) (iMarker : Z) (iVertex : nat)
  : option CVertex :=
  nth_error (nth (Z.to_nat iMarker) vs []) iVertex.

(** What can be said of every event of a run for the target geometry
    [target_geometry] with [nDonor] donors asked for: the collectives are
    issued for interfaces that passed the gate, a scan or an allocation is for
    a vertex that this rank owns, and an allocation is of [nDonor] slots. *)
Definition event_ok (target_geometry : CGeometry) (nDonor : nat) (e : event) : Prop :=
  match e with
  | EvDetermine_ArraySize markDonor markTarget _
  | EvCollect_VertexInfo markDonor markTarget _ =>
      CheckInterfaceBoundary markDonor markTarget = true
  | EvScan markTarget iVertexTarget =>
      exists v, vertex_at (vertex target_geometry) markTarget iVertexTarget = Some v /\
                Domain (node target_geometry (Node v)) = true
  | EvAllocate_DonorInfo markTarget iVertexTarget n =>
      n = nDonor /\
      exists v, vertex_at (vertex target_geometry) markTarget iVertexTarget = Some v /\
                Domain (node target_geometry (Node v)) = true
  | EvNewBuffers _ _ _ _ | EvDeleteBuffers => True
  end.

(** What every state of a run keeps of the target geometry it started from:
    the nodes of the vertices, the halo vertices as they were, and a trace of
    events that are all in order. *)
Definition run_invariant (target_geometry : CGeometry) (nDonor : nat)
  (st : engine_state) : Prop :=
  (forall iMarker,
      map Node (nth iMarker (target_vertices st) [])
      = map Node (nth iMarker (vertex target_geometry) [])) /\
  (forall iMarker iVertex v,
      nth_error (nth iMarker (vertex target_geometry) []) iVertex = Some v ->
      Domain (node target_geometry (Node v)) = false ->
      nth_error (nth iMarker (target_vertices st) []) iVertex = Some v) /\
  Forall (event_ok target_geometry nDonor) (trace (thread st)).


(* ------------------------------------------------------------------ *)
(** * A small interface

    Two ranks, one dimension.  The donor zone has its marker 0 on interface
    1: this rank (rank 0) holds the donor points 10 and 11 at the coordinates
    1 and 2, rank 1 holds the donor point 12 at the coordinate 3.  The target
    zone has its marker 0 on interface 1 as well, with two vertices: one at
    the coordinate 0, owned by this rank, and a halo vertex.  Interface 2 is
    not present on this rank. *)

Module Example.
Definition point (owned : bool) (id : Z) (x : su2double) : CPoint :=
  mkCPoint owned id [x].

Definition donor_geometry : CGeometry :=
  mkCGeometry 1
    (fun iPoint => if iPoint =? 0 then point true 10%Z 1%Q else point true 11%Z 2%Q)
    [[mkCVertex 0 [] [] []; mkCVertex 1 [] [] []]].

Definition target_node (iPoint : nat) : CPoint :=
  if iPoint =? 0 then point true 100%Z 0%Q else point false 101%Z (1 # 2)%Q.

Definition owned_vertex : CVertex := mkCVertex 0 [] [] [].
Definition halo_vertex : CVertex := mkCVertex 1 [Some 7%Z] [Some 1%Z] [Some 1%Q].

Definition target_geometry : CGeometry :=
  mkCGeometry 1 target_node [[owned_vertex; halo_vertex]].

Definition interface_marker (iMarkerInt : Z) : Z :=
  if (iMarkerInt =? 1)%Z then 0%Z else (-1)%Z.

(** [nDonor] donors asked for, two interfaces. *)
Definition config (nDonor : Z) : CConfig := mkCConfig nDonor 4%Z interface_marker.

Definition world : list (list CPoint) :=
  [[point true 10%Z 1%Q; point true 11%Z 2%Q]; [point true 12%Z 3%Q]].

Definition comm : Communicator :=
  mkComm 0 (fun _ => [[]; [point true 12%Z 3%Q]]) (fun _ => 0%Q) (fun _ => (-1)%Z).

(** The same interface with the donor points 20 and 21 at the coordinates 0
    and 1, both on this rank. *)
Definition donor_geometry_01 : CGeometry :=
  mkCGeometry 1
    (fun iPoint => if iPoint =? 0 then point true 20%Z 0%Q else point true 21%Z 1%Q)
    [[mkCVertex 0 [] [] []; mkCVertex 1 [] [] []]].

Definition world_01 : list (list CPoint) := [[point true 20%Z 0%Q; point true 21%Z 1%Q]].

Definition comm_01 : Communicator :=
  mkComm 0 (fun _ => [[]]) (fun _ => 0%Q) (fun _ => (-1)%Z).

(** A thread whose working array has room for [n] candidates. *)
Definition thread_of (n : nat) : thread_state :=
  mkThread (resize n []) true true [].


(** The buffers of interface 1 after both collectives. *)
Definition G : Gathered := collect 1 world (fun _ => 0%Q) (fun _ => (-1)%Z).
Definition G_01 : Gathered := collect 1 world_01 (fun _ => 0%Q) (fun _ => (-1)%Z).

(** The loop body for a vertex of the target marker when [nDonor] donors
    are asked for, with the heap routine of libstdc++. *)
Definition run (nDonor : nat) (target_vertex : CVertex) : CVertex * thread_state :=
  vertex_body (@StdLib.partial_sort DonorInfo) nDonor passivedouble_epsilon
              1 G target_node 0%Z 0 target_vertex (thread_of 3).
End Example.

(* ------------------------------------------------------------------ *)
(** * Reading the run *)

(** The interfaces that the loop of line 65 goes through. *)
Definition interfaces (config_donor : CConfig) : list nat :=
  seq 1 (Z.to_nat (Marker_n_ZoneInterface config_donor / 2)).

(** The test of line 74 for interface [iMarkerInt]. *)
Definition passes (config_donor config_target : CConfig) (iMarkerInt : nat) : bool :=
  CheckInterfaceBoundary (Find_InterfaceMarker config_donor (Z.of_nat iMarkerInt))
                         (Find_InterfaceMarker config_target (Z.of_nat iMarkerInt)).

(** [nVertexDonor] of lines 76-77 for interface [iMarkerInt]. *)
Definition nVertexDonor_of (config_donor : CConfig) (donor_geometry : CGeometry)
  (iMarkerInt : nat) : nat :=
  let markDonor := Find_InterfaceMarker config_donor (Z.of_nat iMarkerInt) in
  if (markDonor =? -1)%Z then 0 else GetnVertex donor_geometry markDonor.

(** The members that the collectives of lines 81 and 92 leave behind for
    interface [iMarkerInt]. *)
Definition interface_buffers (comm : Communicator) (config_donor : CConfig)
  (donor_geometry : CGeometry) (iMarkerInt : nat) : Gathered :=
  gather comm (nDim donor_geometry) (Z.of_nat iMarkerInt)
         (local_donors donor_geometry
                       (Find_InterfaceMarker config_donor (Z.of_nat iMarkerInt))
                       (nVertexDonor_of config_donor donor_geometry iMarkerInt)).

(** The events of interface [iMarkerInt] before and after its loop over the
    target vertices (lines 81-92 and 147-151). *)
Definition opening (comm : Communicator) (config_donor config_target : CConfig)
  (donor_geometry : CGeometry) (iMarkerInt : nat) : list event :=
  let markDonor := Find_InterfaceMarker config_donor (Z.of_nat iMarkerInt) in
  let markTarget := Find_InterfaceMarker config_target (Z.of_nat iMarkerInt) in
  let nVertexDonor := nVertexDonor_of config_donor donor_geometry iMarkerInt in
  let G := interface_buffers comm config_donor donor_geometry iMarkerInt in
  let nDim := nDim donor_geometry in
  let Max := MaxLocalVertex_Donor G in
  [EvDetermine_ArraySize markDonor markTarget nVertexDonor;
   EvNewBuffers (Max * nDim) Max (nProcessor G * Max * nDim) (nProcessor G * Max);
   EvCollect_VertexInfo markDonor markTarget nVertexDonor].

(** The two collectives among the events. *)
Definition is_collective (e : event) : bool :=
  match e with
  | EvDetermine_ArraySize _ _ _ | EvCollect_VertexInfo _ _ _ => true
  | _ => false
  end.

(** The events of the loop over the target vertices. *)
Definition is_vertex_event (e : event) : bool :=
  match e with
  | EvScan _ _ | EvAllocate_DonorInfo _ _ _ => true
  | _ => false
  end.


(** The vertex with the record that lines 126-143 write for it. *)
Definition transfer_record
  (partial_sort : (DonorInfo -> DonorInfo -> bool) -> nat -> list DonorInfo
                  -> list DonorInfo)
  (nDonor : nat) (eps : su2double) (nDim : nat) (G : Gathered)
  (target_node : nat -> CPoint) (target_vertex : CVertex) : CVertex :=
  let sel := selected partial_sort nDonor nDim G (target_node (Node target_vertex)) in
  mkCVertex (Node target_vertex)
    (map (fun d => Some (pidx d)) sel)
    (map (fun d => Some (proc d)) sel)
    (stored (map (fun d => (1 / (dist d + eps) / denominator eps sel)%Q) sel)).



(** The index [idx] of line 116 for a slot of the scan. *)
Definition slot_index (G : Gathered) (s : nat * nat) : nat :=
  fst s * MaxLocalVertex_Donor G + snd s.

(** Where a run is between its events: no interface open, the sizes known,
    the buffers allocated, the buffers filled. *)
Inductive phase : Type := Idle | Sized | Allocated | Collected.

Definition phase_step (p : phase) (e : event) : option phase :=
  match p, e with
  | Idle, EvDetermine_ArraySize _ _ _ => Some Sized
  | Sized, EvNewBuffers _ _ _ _ => Some Allocated
  | Allocated, EvCollect_VertexInfo _ _ _ => Some Collected
  | Collected, EvScan _ _ => Some Collected
  | Collected, EvAllocate_DonorInfo _ _ _ => Some Collected
  | Collected, EvDeleteBuffers => Some Idle
  | _, _ => None
  end.

Fixpoint run_phases (p : phase) (t : list event) : option phase :=
  match t with
  | [] => Some p
  | e :: t' =>
      match phase_step p e with
      | Some q => run_phases q t'
      | None => None
      end
  end.

(* ------------------------------------------------------------------ *)
(** * The SST turbulence solver (CTurbSSTSolver.hpp)

    The header declares the solver and defines four of its members inline:
    [GetConstants], [SetFreeStream_Solution], [GetTke_Inf] and
    [GetOmega_Inf]. *)

(** The container of the solution behind [nodes].  [CVariable] is not part of
    the sources at hand; it is an interface here, with what
    [SetSolution(iPoint, iVar, val)] and a read of the solution are to each
    other for the entries [(iPoint, iVar)] that the container holds.  Nothing
    is said of an access to an entry that it does not hold. *)
Class CVariable (V : Type) : Type := {
  holds : V -> nat -> nat -> bool;
  GetSolution : V -> nat -> nat -> su2double;
  SetSolution : V -> nat -> nat -> su2double -> V;
  holds_SetSolution :
    forall v iPoint iVar val jPoint jVar,
      holds (SetSolution v iPoint iVar val) jPoint jVar = holds v jPoint jVar;
  GetSolution_SetSolution :
    forall v iPoint iVar val,
      holds v iPoint iVar = true ->
      GetSolution (SetSolution v iPoint iVar val) iPoint iVar = val;
  GetSolution_SetSolution_other :
    forall v iPoint iVar val jPoint jVar,
      holds v iPoint iVar = true ->
      (jPoint, jVar) <> (iPoint, iVar) ->
      GetSolution (SetSolution v iPoint iVar val) jPoint jVar
      = GetSolution v jPoint jVar
}.

(** The members of the solver that the inline code reads or writes:
    [constants], [kine_Inf] and [omega_Inf] of the class, [nPoint] and [nodes]
    of its base. *)
Record CTurbSSTSolver (V : Type) : Type := mkCTurbSSTSolver {
  constants : list su2double;
  kine_Inf : su2double;
  omega_Inf : su2double;
  nPoint : nat;
  nodes : V
}.

Arguments mkCTurbSSTSolver {V} _ _ _ _ _.
Arguments constants {V} _.
Arguments kine_Inf {V} _.
Arguments omega_Inf {V} _.
Arguments nPoint {V} _.
Arguments nodes {V} _.

(** [inline su2double* GetConstants() const final { return constants; }] *)
Definition GetConstants {V : Type} (solver : CTurbSSTSolver V) : list su2double :=
  constants solver.

(** [inline su2double GetTke_Inf(void) { return kine_Inf; }] *)
Definition GetTke_Inf {V : Type} (solver : CTurbSSTSolver V) : su2double :=
  kine_Inf solver.

(** [inline su2double GetOmega_Inf(void) { return omega_Inf; }] *)
Definition GetOmega_Inf {V : Type} (solver : CTurbSSTSolver V) : su2double :=
  omega_Inf solver.

(** [nodes->SetSolution(iPoint, iVar, val)] on the solver. *)
Definition nodes_SetSolution {V : Type} `{CVariable V} (solver : CTurbSSTSolver V)
  (iPoint iVar : nat) (val : su2double) : CTurbSSTSolver V :=
  mkCTurbSSTSolver (constants solver) (kine_Inf solver) (omega_Inf solver)
                   (nPoint solver) (SetSolution (nodes solver) iPoint iVar val).

(** [SetFreeStream_Solution(config)] (lines 256-261); [config] is not read. *)
Definition SetFreeStream_Solution {V : Type} `{CVariable V} (solver : CTurbSSTSolver V)
  (config : CConfig) : CTurbSSTSolver V :=
  fold_left
    (fun solver iPoint =>
       let solver := nodes_SetSolution solver iPoint 0 (kine_Inf solver) in
       nodes_SetSolution solver iPoint 1 (omega_Inf solver))
    (seq 0 (nPoint solver))
    solver.

(** A container to run the solver on: one row of variables per point. *)
Module Matrix.
Definition t : Type := list (list su2double).

Definition holds (m : t) (iPoint iVar : nat) : bool :=
  match nth_error m iPoint with
  | Some row => iVar <? length row
  | None => false
  end.

Definition GetSolution (m : t) (iPoint iVar : nat) : su2double :=
  nth iVar (nth iPoint m []) 0%Q.

Definition SetSolution (m : t) (iPoint iVar : nat) (val : su2double) : t :=
  update m iPoint (update (nth iPoint m []) iVar val).
End Matrix.

(* ================================================================== *)
(** * Properties *)

(** ** Arrays *)

Lemma length_update {A : Type} (l : list A) i x : length (update l i x) = length l.
Proof.
  revert i; induction l as [|y l IH]; intros [|i]; simpl; auto.
Qed.

Lemma update_app_r {A : Type} (l1 l2 : list A) i x :
  update (l1 ++ l2) (length l1 + i) x = l1 ++ update l2 i x.
Proof.
  induction l1 as [|y l1 IH]; simpl; [reflexivity | now rewrite IH].
Qed.

Lemma update_middle {A : Type} (l1 l2 : list A) y x :
  update (l1 ++ y :: l2) (length l1) x = l1 ++ x :: l2.
Proof.
  rewrite <- (Nat.add_0_r (length l1)) at 1. now rewrite update_app_r.
Qed.

Lemma update_at {A : Type} (l1 l2 : list A) i y x :
  length l1 = i -> update (l1 ++ y :: l2) i x = l1 ++ x :: l2.
Proof. intros <-. apply update_middle. Qed.

Lemma update_ge {A : Type} (l : list A) i x : length l <= i -> update l i x = l.
Proof.
  revert i; induction l as [|y l IH]; intros [|i] H; simpl in *; try lia; auto.
  now rewrite IH by lia.
Qed.

Lemma nth_error_update_eq {A : Type} (l : list A) i x :
  i < length l -> nth_error (update l i x) i = Some x.
Proof.
  revert i; induction l as [|y l IH]; intros [|i] H; simpl in *; try lia; auto.
  apply IH; lia.
Qed.

Lemma nth_error_update_neq {A : Type} (l : list A) i j x :
  i <> j -> nth_error (update l i x) j = nth_error l j.
Proof.
  revert i j; induction l as [|y l IH]; intros [|i] [|j] H; simpl; auto; try lia.
Qed.

Lemma nth_update_neq {A : Type} (l : list A) i j x d :
  i <> j -> nth j (update l i x) d = nth j l d.
Proof.
  revert i j; induction l as [|y l IH]; intros [|i] [|j] H; simpl; auto; try lia.
Qed.

Lemma nth_update_eq {A : Type} (l : list A) i x d :
  i < length l -> nth i (update l i x) d = x.
Proof.
  revert i; induction l as [|y l IH]; intros [|i] H; simpl in *; try lia; auto.
  apply IH; lia.
Qed.

(** A position of a list splits it. *)
Lemma nth_error_decompose {A : Type} (l : list A) i x :
  nth_error l i = Some x ->
  l = firstn i l ++ x :: skipn (S i) l /\ length (firstn i l) = i.
Proof.
  revert i; induction l as [|y l IH]; intros [|i] H; simpl in *; try discriminate.
  - inversion H; subst; auto.
  - destruct (IH _ H) as [E L]. split; [now rewrite <- E | now rewrite L].
Qed.

Lemma firstn_S_snoc {A : Type} (l : list A) i x :
  nth_error l i = Some x -> firstn (S i) l = firstn i l ++ [x].
Proof.
  revert i; induction l as [|y l IH]; intros [|i] H; simpl in *; try discriminate.
  - now inversion H.
  - now rewrite (IH _ H).
Qed.

(** ** Loops *)

Lemma fold_left_flat_map {A B C : Type} (f : A -> C -> A) (g : B -> list C) l a :
  fold_left f (flat_map g l) a = fold_left (fun a x => fold_left f (g x) a) l a.
Proof.
  revert a; induction l as [|x l IH]; intros a; simpl; [reflexivity|].
  now rewrite fold_left_app, IH.
Qed.

Lemma fold_left_map {A B C : Type} (f : A -> C -> A) (g : B -> C) l a :
  fold_left f (map g l) a = fold_left (fun a x => f a (g x)) l a.
Proof.
  revert a; induction l as [|x l IH]; intros a; simpl; auto.
Qed.

Lemma fold_left_ext {A B : Type} (f g : A -> B -> A) l a :
  (forall a x, f a x = g a x) -> fold_left f l a = fold_left g l a.
Proof.
  intros E; revert a; induction l as [|x l IH]; intros a; simpl; auto.
  now rewrite E, IH.
Qed.

Lemma fold_left_add_sum (l : list nat) (a : nat) :
  fold_left Nat.add l a = a + list_sum l.
Proof.
  revert a; induction l as [|x l IH]; intros a; simpl; [lia|].
  rewrite IH; lia.
Qed.

(** ** Machine integers *)

Lemma to_int_small (z : Z) : (0 <= z <= INT_MAX)%Z -> to_int z = z.
Proof.
  unfold to_int, INT_MAX; intros H.
  rewrite Z.mod_small by lia. lia.
Qed.

(** ** Rationals *)

Lemma su2_lt_iff (a b : su2double) : su2_lt a b = true <-> (a < b)%Q.
Proof.
  unfold su2_lt. rewrite negb_true_iff.
  split; intros H.
  - apply Qnot_le_lt. intros L. apply Qle_bool_iff in L. congruence.
  - destruct (Qle_bool b a) eqn:E; auto. apply Qle_bool_iff in E.
    exfalso. apply (Qlt_not_le _ _ H E).
Qed.

Lemma su2_lt_false_iff (a b : su2double) : su2_lt a b = false <-> (b <= a)%Q.
Proof.
  unfold su2_lt. rewrite negb_false_iff. apply Qle_bool_iff.
Qed.

Lemma Qeq_bool_pos (q : Q) : (0 < q)%Q -> Qeq_bool q 0 = false.
Proof.
  intros H. destruct (Qeq_bool q 0) eqn:E; auto.
  apply Qeq_bool_iff in E. rewrite E in H. exfalso. apply (Qlt_irrefl _ H).
Qed.

Lemma eps_pos : (0 < passivedouble_epsilon)%Q.
Proof. reflexivity. Qed.

(** ** The scan (lines 113-123) *)

Lemma map_nth_seq (l : list nat) : map (fun i => nth i l 0) (seq 0 (length l)) = l.
Proof.
  induction l as [|x l IH]; simpl; [reflexivity|].
  f_equal. rewrite <- seq_shift, map_map. exact IH.
Qed.

Lemma length_scan_order (G : Gathered) : length (scan_order G) = nPossibleDonor G.
Proof.
  unfold scan_order, nPossibleDonor, nProcessor.
  rewrite length_flat_map, fold_left_add_sum. simpl.
  f_equal. rewrite <- (map_nth_seq (Buffer_Receive_nVertex_Donor G)) at 2.
  apply map_ext. intros i. now rewrite length_map, length_seq.
Qed.

Lemma length_candidates nDim G Coord_i :
  length (candidates nDim G Coord_i) = nPossibleDonor G.
Proof. unfold candidates. now rewrite length_map, length_scan_order. Qed.

(** The slots visited are those below each rank's own count. *)
Lemma in_scan_order (G : Gathered) (iProcessor jVertex : nat) :
  In (iProcessor, jVertex) (scan_order G) <->
  iProcessor < nProcessor G /\
  jVertex < nth iProcessor (Buffer_Receive_nVertex_Donor G) 0.
Proof.
  unfold scan_order. rewrite in_flat_map. split.
  - intros (p & Hp & Hj). apply in_map_iff in Hj. destruct Hj as (j & E & Hj).
    inversion E; subst. apply in_seq in Hp. apply in_seq in Hj. lia.
  - intros [Hp Hj]. exists iProcessor. split; [apply in_seq; lia|].
    apply in_map. apply in_seq. lia.
Qed.

Lemma compute_all_distances_fold nDim G Coord_i v :
  compute_all_distances nDim G Coord_i v =
  fold_left store_next (candidates nDim G Coord_i) (v, 0%Z, true).
Proof.
  unfold compute_all_distances, candidates, scan_order.
  rewrite fold_left_map, fold_left_flat_map.
  apply fold_left_ext. intros st p.
  rewrite fold_left_map. apply fold_left_ext.
  intros [[w i] ok] j. reflexivity.
Qed.

Lemma length_store_next st c : length (fst (fst (store_next st c))) = length (fst (fst st)).
Proof.
  destruct st as [[v i] ok]. unfold store_next, vec_store_int, vec_store.
  destruct (0 <=? i)%Z; [|reflexivity].
  destruct (Z.to_nat i <? length v); simpl; [apply length_update | reflexivity].
Qed.

Lemma length_fold_store_next cs st :
  length (fst (fst (fold_left store_next cs st))) = length (fst (fst st)).
Proof.
  revert st; induction cs as [|c cs IH]; intros st; simpl; [reflexivity|].
  now rewrite IH, length_store_next.
Qed.

Lemma length_compute_all_distances nDim G Coord_i v :
  length (fst (fst (compute_all_distances nDim G Coord_i v))) = length v.
Proof. rewrite compute_all_distances_fold. apply length_fold_store_next. Qed.

(** Storing a run of candidates over a stretch of the vector, inside the
    range of the counter. *)
Lemma fold_store_next_run (cs pre mid post : list DonorInfo) (ok : bool) :
  length mid = length cs ->
  (Z.of_nat (length pre + length cs) <= INT_MAX)%Z ->
  fold_left store_next cs (pre ++ mid ++ post, Z.of_nat (length pre), ok) =
  (pre ++ cs ++ post, Z.of_nat (length pre + length cs), ok).
Proof.
  revert pre mid ok; induction cs as [|c cs IH]; intros pre mid ok Hlen Hmax.
  - destruct mid; [|discriminate]. simpl. now rewrite Nat.add_0_r.
  - destruct mid as [|m mid]; [discriminate|]. simpl in *.
    unfold vec_store_int, vec_store.
    replace (0 <=? Z.of_nat (length pre))%Z with true by (symmetry; apply Z.leb_le; lia).
    rewrite Nat2Z.id.
    replace (length pre <? length (pre ++ m :: mid ++ post)) with true
      by (symmetry; apply Nat.ltb_lt; rewrite length_app; simpl; lia).
    rewrite update_middle, andb_true_r.
    rewrite to_int_small by (unfold INT_MAX in *; lia).
    specialize (IH (pre ++ [c]) mid ok).
    rewrite length_app in IH. simpl in IH.
    replace (Z.of_nat (length pre) + 1)%Z with (Z.of_nat (length pre + 1)) by lia.
    rewrite <- !app_assoc in IH. simpl in IH.
    rewrite IH by lia. f_equal. f_equal. lia.
Qed.

Lemma compute_all_distances_spec nDim G Coord_i v :
  length v = nPossibleDonor G ->
  (Z.of_nat (nPossibleDonor G) <= INT_MAX)%Z ->
  compute_all_distances nDim G Coord_i v =
  (candidates nDim G Coord_i, Z.of_nat (nPossibleDonor G), true).
Proof.
  intros Hlen Hmax. rewrite compute_all_distances_fold.
  pose proof (length_candidates nDim G Coord_i) as Hc.
  pose proof (fold_store_next_run (candidates nDim G Coord_i) [] v [] true) as H.
  simpl in H. rewrite !app_nil_r in H. rewrite H; [now rewrite Hc | lia | lia].
Qed.

(** ** Numerators and denominator (lines 130-134) *)

Lemma vec_load_nth (v : list DonorInfo) i d :
  nth_error v i = Some d -> vec_load v i = (d, true).
Proof. unfold vec_load. now intros ->. Qed.

Lemma compute_numerators_spec eps n v :
  n <= length v ->
  compute_numerators eps n v =
  (map (numerator eps) (firstn n v) ++ skipn n v,
   Qsum (map (fun d => dist (numerator eps d)) (firstn n v)),
   true,
   forallb (fun d => negb (Qeq_bool (dist d + eps) 0)) (firstn n v)).
Proof.
  unfold compute_numerators. induction n as [|n IH]; intros Hn.
  - reflexivity.
  - rewrite seq_S, fold_left_app, IH by lia. cbn [fold_left Nat.add].
    destruct (nth_error v n) as [d|] eqn:E; [|apply nth_error_None in E; lia].
    destruct (nth_error_decompose _ _ _ E) as [D L].
    assert (Hs : skipn n v = d :: skipn (S n) v).
    { rewrite D at 1. rewrite <- L at 1. rewrite skipn_app, Nat.sub_diag.
      rewrite skipn_all2 by lia. reflexivity. }
    assert (Hl : length (map (numerator eps) (firstn n v)) = n)
      by (now rewrite length_map).
    rewrite Hs.
    rewrite (vec_load_nth (map (numerator eps) (firstn n v) ++ d :: skipn (S n) v) n d)
      by (rewrite nth_error_app2, Hl, Nat.sub_diag by lia; reflexivity).
    unfold su2_div, vec_store.
    replace (n <? length (map (numerator eps) (firstn n v) ++ d :: skipn (S n) v))
      with true by (symmetry; apply Nat.ltb_lt; rewrite length_app; simpl; lia).
    rewrite update_at by exact Hl.
    rewrite (firstn_S_snoc _ _ _ E), !map_app, forallb_app.
    unfold Qsum. rewrite fold_left_app. cbn [map fold_left forallb].
    rewrite <- app_assoc, !andb_true_r. reflexivity.
Qed.

(** ** Writing the record (lines 137-143) *)

Lemma fold_update_repeat {A : Type} (f : nat -> A) (n k : nat) :
  k <= n ->
  fold_left (fun l i => update l i (Some (f i))) (seq 0 k) (repeat None n) =
  map (fun i => Some (f i)) (seq 0 k) ++ repeat None (n - k).
Proof.
  induction k as [|k IH]; intros Hk.
  - simpl. now rewrite Nat.sub_0_r.
  - rewrite seq_S, fold_left_app, IH by lia. simpl.
    replace (n - k) with (S (n - S k)) by lia. simpl.
    rewrite update_at by (now rewrite length_map, length_seq).
    rewrite map_app, <- app_assoc. reflexivity.
Qed.

Lemma set_coefficients_fold n v denom vert :
  set_coefficients n v denom vert =
  (mkCVertex (Node vert)
     (fold_left (fun l i => update l i (Some (pidx (fst (vec_load v i)))))
                (seq 0 n) (Donor_Points vert))
     (fold_left (fun l i => update l i (Some (proc (fst (vec_load v i)))))
                (seq 0 n) (Donor_Proc vert))
     (fold_left (fun l i => update l i (Some (dist (fst (vec_load v i)) / denom)%Q))
                (seq 0 n) (Donor_Coeff vert)),
   forallb (fun i => snd (vec_load v i)) (seq 0 n),
   forallb (fun _ => negb (Qeq_bool denom 0)) (seq 0 n)).
Proof.
  unfold set_coefficients. induction n as [|n IH].
  - destruct vert; reflexivity.
  - rewrite !seq_S, !fold_left_app, !forallb_app, IH. simpl.
    destruct (vec_load v n) as [d okr]. simpl.
    unfold SetDonorCoeff, SetInterpDonorProcessor, SetInterpDonorPoint. simpl.
    rewrite !andb_true_r. reflexivity.
Qed.

(** Whatever the working array holds, the record written has [nDonor] slots
    and every slot has been assigned. *)
Lemma set_coefficients_allocated n v denom vert :
  fst (fst (set_coefficients n v denom (Allocate_DonorInfo n vert))) =
  mkCVertex (Node vert)
    (map (fun i => Some (pidx (fst (vec_load v i)))) (seq 0 n))
    (map (fun i => Some (proc (fst (vec_load v i)))) (seq 0 n))
    (map (fun i => Some (dist (fst (vec_load v i)) / denom)%Q) (seq 0 n)).
Proof.
  rewrite set_coefficients_fold. simpl.
  rewrite !fold_update_repeat by lia. rewrite Nat.sub_diag. simpl.
  now rewrite !app_nil_r.
Qed.

Lemma map_vec_load_firstn {B : Type} (g : DonorInfo -> B) (v : list DonorInfo) n :
  n <= length v ->
  map (fun i => g (fst (vec_load v i))) (seq 0 n) = map g (firstn n v).
Proof.
  induction n as [|n IH]; intros Hn; [reflexivity|].
  destruct (nth_error v n) as [d|] eqn:E; [|apply nth_error_None in E; lia].
  rewrite seq_S, map_app, IH, (firstn_S_snoc _ _ _ E), map_app by lia. simpl.
  now rewrite (vec_load_nth _ _ _ E).
Qed.

Lemma forallb_vec_load (v : list DonorInfo) n :
  n <= length v -> forallb (fun i => snd (vec_load v i)) (seq 0 n) = true.
Proof.
  intros Hn. apply forallb_forall. intros i Hi. apply in_seq in Hi.
  destruct (nth_error v i) as [d|] eqn:E; [|apply nth_error_None in E; lia].
  now rewrite (vec_load_nth _ _ _ E).
Qed.

(** ** Sums of rationals *)

Lemma fold_left_Qplus (l : list Q) (a : Q) :
  (fold_left Qplus l a == a + Qsum l)%Q.
Proof.
  unfold Qsum. revert a; induction l as [|x l IH]; intros a; simpl.
  - ring.
  - rewrite (IH (a + x)%Q), (IH (0 + x)%Q). ring.
Qed.

Lemma Qsum_cons (x : Q) (l : list Q) : (Qsum (x :: l) == x + Qsum l)%Q.
Proof.
  unfold Qsum at 1. simpl. rewrite fold_left_Qplus. ring.
Qed.

Lemma Qsum_nonneg (l : list Q) : Forall (fun x => 0 <= x)%Q l -> (0 <= Qsum l)%Q.
Proof.
  induction 1 as [|x l Hx Hl IH].
  - apply Qle_refl.
  - rewrite Qsum_cons. lra.
Qed.

Lemma Qsum_pos (l : list Q) :
  l <> [] -> Forall (fun x => 0 < x)%Q l -> (0 < Qsum l)%Q.
Proof.
  intros Hne H. destruct H as [|x l Hx Hl]; [congruence|].
  rewrite Qsum_cons.
  assert (0 <= Qsum l)%Q.
  { apply Qsum_nonneg. eapply Forall_impl; [|exact Hl].
    intros a Ha. apply Qlt_le_weak, Ha. }
  lra.
Qed.


Lemma Qsquare_nonneg (x : Q) : (0 <= x * x)%Q.
Proof.
  destruct (Qlt_le_dec x 0) as [H|H].
  - setoid_replace (x * x)%Q with ((- x) * (- x))%Q by ring.
    apply Qmult_le_0_compat; lra.
  - apply Qmult_le_0_compat; exact H.
Qed.

(** A squared distance is not negative. *)
Lemma PointsSquareDistance_nonneg nDim point_i point_j :
  (0 <= PointsSquareDistance nDim point_i point_j)%Q.
Proof.
  unfold PointsSquareDistance.
  assert (H : forall l d, (0 <= d)%Q ->
            (0 <= fold_left
                    (fun d iDim =>
                       d + (point_j iDim - point_i iDim) * (point_j iDim - point_i iDim))
                    l d)%Q).
  { induction l as [|k l IH]; intros d Hd; simpl; [exact Hd|].
    apply IH.
    pose proof (Qsquare_nonneg (point_j k - point_i k)) as Hs.
    set (x := ((point_j k - point_i k) * (point_j k - point_i k))%Q) in *.
    lra. }
  apply H. apply Qle_refl.
Qed.

Lemma candidates_nonneg nDim G Coord_i :
  Forall (fun d => 0 <= dist d)%Q (candidates nDim G Coord_i).
Proof.
  apply Forall_forall. intros d Hd. unfold candidates in Hd.
  apply in_map_iff in Hd. destruct Hd as (s & <- & _).
  apply PointsSquareDistance_nonneg.
Qed.

Lemma numerator_pos eps d : (0 < eps)%Q -> (0 <= dist d)%Q -> (0 < dist (numerator eps d))%Q.
Proof.
  intros He Hd. simpl. unfold Qdiv. rewrite Qmult_1_l.
  apply Qinv_lt_0_compat. lra.
Qed.

(* ------------------------------------------------------------------ *)
(** ** One target vertex *)

Section Selection.
Variable partial_sort :
  (DonorInfo -> DonorInfo -> bool) -> nat -> list DonorInfo -> list DonorInfo.
Hypothesis length_partial_sort :
  forall k (v : list DonorInfo),
    k <= length v -> length (partial_sort closer k v) = length v.

Lemma length_selected nDonor nDim G target :
  nDonor <= nPossibleDonor G -> length (selected partial_sort nDonor nDim G target) = nDonor.
Proof.
  intros Hk. unfold selected.
  rewrite length_firstn, length_partial_sort; rewrite length_candidates; lia.
Qed.

(** The body of the loop when the selection stays inside the array. *)
Lemma vertex_body_spec nDonor eps nDim G target_node markTarget iVertexTarget
      target_vertex st :
  Domain (target_node (Node target_vertex)) = true ->
  length (donorInfo st) = nPossibleDonor G ->
  (Z.of_nat (nPossibleDonor G) <= INT_MAX)%Z ->
  nDonor <= nPossibleDonor G ->
  let sel := selected partial_sort nDonor nDim G (target_node (Node target_vertex)) in
  vertex_body partial_sort nDonor eps nDim G target_node markTarget iVertexTarget
              target_vertex st =
  (mkCVertex (Node target_vertex)
     (map (fun d => Some (pidx d)) sel)
     (map (fun d => Some (proc d)) sel)
     (map (fun d => Some (dist (numerator eps d) / denominator eps sel)%Q) sel),
   mkThread
     (map (numerator eps) sel
      ++ rejected partial_sort nDonor nDim G (target_node (Node target_vertex)))
     (in_bounds st)
     (finite st
      && forallb (fun d => negb (Qeq_bool (dist d + eps) 0)) sel
      && forallb (fun _ => negb (Qeq_bool (denominator eps sel) 0)) (seq 0 nDonor))
     (trace st ++ [EvScan markTarget iVertexTarget;
                   EvAllocate_DonorInfo markTarget iVertexTarget nDonor])).
Proof.
  intros owned resized counted Hk sel. unfold vertex_body. rewrite owned. cbn [negb].
  rewrite compute_all_distances_spec by assumption.
  set (cands := candidates nDim G (coord_ptr (target_node (Node target_vertex)))).
  unfold find_k_closest.
  assert (Hc : length cands = nPossibleDonor G) by apply length_candidates.
  replace (nDonor <=? length cands) with true
    by (symmetry; apply Nat.leb_le; lia).
  assert (Hp : length (partial_sort closer nDonor cands) = nPossibleDonor G)
    by (rewrite length_partial_sort; lia).
  rewrite compute_numerators_spec by lia.
  change (firstn nDonor (partial_sort closer nDonor cands)) with sel.
  change (skipn nDonor (partial_sort closer nDonor cands))
    with (rejected partial_sort nDonor nDim G (target_node (Node target_vertex))).
  fold (denominator eps sel).
  pose proof (length_selected nDonor nDim G (target_node (Node target_vertex)) Hk) as Hs.
  fold sel in Hs.
  set (v3 := map (numerator eps) sel
             ++ rejected partial_sort nDonor nDim G (target_node (Node target_vertex))).
  assert (H3 : firstn nDonor v3 = map (numerator eps) sel).
  { unfold v3. rewrite firstn_app, length_map, Hs, Nat.sub_diag. simpl.
    rewrite app_nil_r. apply firstn_all2. rewrite length_map. lia. }
  assert (L3 : nDonor <= length v3).
  { unfold v3. rewrite length_app, length_map. lia. }
  pose proof (set_coefficients_allocated nDonor v3 (denominator eps sel) target_vertex)
    as Hv.
  pose proof (set_coefficients_fold nDonor v3 (denominator eps sel)
                (Allocate_DonorInfo nDonor target_vertex)) as Hf.
  destruct (set_coefficients nDonor v3 (denominator eps sel)
              (Allocate_DonorInfo nDonor target_vertex)) as [[v ok4] fin4].
  simpl in Hv. subst v.
  pose proof (f_equal snd Hf) as E5.
  pose proof (f_equal (fun x => snd (fst x)) Hf) as E4.
  simpl in E4, E5. subst ok4 fin4. clear Hf.
  rewrite (forallb_vec_load v3 _ L3).
  rewrite (map_vec_load_firstn (fun d => Some (pidx d)) v3 _ L3).
  rewrite (map_vec_load_firstn (fun d => Some (proc d)) v3 _ L3).
  rewrite (map_vec_load_firstn
             (fun d => Some (dist d / denominator eps sel)%Q) v3 _ L3).
  rewrite H3, !map_map, !andb_true_r. reflexivity.
Qed.
End Selection.

(** ** The gathered buffers (spec sections 4.2 and 4.3) *)









Section Collected.
Variables (nDim : nat) (world : list (list CPoint)).
Variables (junkC : nat -> su2double) (junkP : nat -> Z).

Let G := collect nDim world junkC junkP.
Let Max := snd (Determine_ArraySize world).






End Collected.

(* ------------------------------------------------------------------ *)
(** ** What the selection guarantees *)

Lemma closer_false_iff (a b : DonorInfo) : closer a b = false <-> (dist b <= dist a)%Q.
Proof. apply su2_lt_false_iff. Qed.


(** Whatever the candidates, an owned vertex gets a record of [nDonor] slots,
    all of them assigned. *)
Lemma vertex_body_record partial_sort nDonor eps nDim G target_node markTarget
      iVertexTarget target_vertex st :
  Domain (target_node (Node target_vertex)) = true ->
  exists points procs coeffs,
    fst (vertex_body partial_sort nDonor eps nDim G target_node markTarget
                     iVertexTarget target_vertex st)
    = mkCVertex (Node target_vertex) (map Some points) (map Some procs) (stored coeffs)
    /\ length points = nDonor /\ length procs = nDonor /\ length coeffs = nDonor.
Proof.
  intros owned. unfold vertex_body. rewrite owned. cbn [negb].
  destruct (compute_all_distances nDim G _ (donorInfo st)) as [[d1 i1] ok1].
  destruct (find_k_closest partial_sort nDonor d1) as [d2 ok2].
  destruct (compute_numerators eps nDonor d2) as [[[d3 den] ok3] fin3].
  pose proof (set_coefficients_allocated nDonor d3 den target_vertex) as Hv.
  destruct (set_coefficients nDonor d3 den (Allocate_DonorInfo nDonor target_vertex))
    as [[v ok4] fin4].
  simpl in Hv. subst v. cbn [fst].
  exists (map (fun i => pidx (fst (vec_load d3 i))) (seq 0 nDonor)),
         (map (fun i => proc (fst (vec_load d3 i))) (seq 0 nDonor)),
         (map (fun i => (dist (fst (vec_load d3 i)) / den)%Q) (seq 0 nDonor)).
  unfold stored. rewrite !map_map, !length_map, !length_seq. auto.
Qed.

Section Guarantees.
Variable partial_sort :
  (DonorInfo -> DonorInfo -> bool) -> nat -> list DonorInfo -> list DonorInfo.
Hypothesis partial_sort_ok : partial_sort_conforms closer (partial_sort closer).

Lemma conforms_length k (v : list DonorInfo) :
  k <= length v -> length (partial_sort closer k v) = length v.
Proof.
  intros Hk. destruct (partial_sort_ok k v Hk) as [P _].
  symmetry. apply Permutation_length, P.
Qed.

(** The flag after the body: the scan stays inside the array, the selection
    and what follows do so exactly when [nDonor] candidates exist. *)
Lemma vertex_body_in_bounds nDonor eps nDim G target_node markTarget iVertexTarget
      target_vertex st :
  Domain (target_node (Node target_vertex)) = true ->
  length (donorInfo st) = nPossibleDonor G ->
  (Z.of_nat (nPossibleDonor G) <= INT_MAX)%Z ->
  in_bounds (snd (vertex_body partial_sort nDonor eps nDim G target_node markTarget
                              iVertexTarget target_vertex st))
  = in_bounds st && (nDonor <=? nPossibleDonor G).
Proof.
  intros owned resized counted.
  destruct (le_gt_dec nDonor (nPossibleDonor G)) as [Hk|Hk].
  - rewrite (vertex_body_spec partial_sort conforms_length) by assumption. cbn [snd in_bounds].
    replace (nDonor <=? nPossibleDonor G) with true
      by (symmetry; apply Nat.leb_le; exact Hk).
    now rewrite andb_true_r.
  - unfold vertex_body. rewrite owned. cbn [negb].
    rewrite compute_all_distances_spec by assumption.
    unfold find_k_closest. rewrite length_candidates.
    replace (nDonor <=? nPossibleDonor G) with false
      by (symmetry; apply Nat.leb_gt; exact Hk).
    destruct (compute_numerators eps nDonor _) as [[[d3 den] ok3] fin3].
    destruct (set_coefficients nDonor d3 den _) as [[v ok4] fin4].
    cbn [snd in_bounds]. now rewrite !andb_true_r, !andb_false_r.
Qed.

(** The selection takes [nDonor] of the candidates, in ascending order of
    distance, and leaves none behind that is closer than one it took. *)
Lemma selection_spec nDonor nDim G target :
  nDonor <= nPossibleDonor G ->
  let sel := selected partial_sort nDonor nDim G target in
  let rej := rejected partial_sort nDonor nDim G target in
  Permutation (candidates nDim G (coord_ptr target)) (sel ++ rej) /\
  length sel = nDonor /\
  StronglySorted (fun a b => dist a <= dist b)%Q sel /\
  Forall (fun r => Forall (fun s => dist s <= dist r)%Q sel) rej.
Proof.
  intros Hk sel rej.
  assert (Hc : nDonor <= length (candidates nDim G (coord_ptr target)))
    by (now rewrite length_candidates).
  destruct (partial_sort_ok _ _ Hc) as (P & S & F).
  unfold sel, rej, selected, rejected. rewrite firstn_skipn.
  split; [exact P|]. split; [apply (length_selected partial_sort conforms_length), Hk|].
  split.
  - clear -S. unfold sorted_wrt in S.
    induction S as [|a l S IH Ha]; constructor; auto.
    eapply Forall_impl; [|exact Ha]. intros b Hb. now apply closer_false_iff.
  - eapply Forall_impl; [|exact F]. intros r Hr.
    eapply Forall_impl; [|exact Hr]. intros s Hs. now apply closer_false_iff.
Qed.

End Guarantees.

(* ------------------------------------------------------------------ *)
(** ** Weights *)

Lemma Forall_firstn {A : Type} (P : A -> Prop) (n : nat) (l : list A) :
  Forall P l -> Forall P (firstn n l).
Proof.
  intros H. rewrite <- (firstn_skipn n l) in H. apply Forall_app in H. tauto.
Qed.

Lemma Forall_Permutation {A : Type} (P : A -> Prop) (l l' : list A) :
  Permutation l l' -> Forall P l -> Forall P l'.
Proof.
  intros Hp H. rewrite Forall_forall in *. intros x Hx.
  apply H. eapply Permutation_in; [apply Permutation_sym, Hp | exact Hx].
Qed.

Lemma forallb_true {A : Type} (f : A -> bool) (l : list A) :
  Forall (fun x => f x = true) l -> forallb f l = true.
Proof. intros H. apply forallb_forall. now apply Forall_forall. Qed.

Section Weights.
Variable partial_sort :
  (DonorInfo -> DonorInfo -> bool) -> nat -> list DonorInfo -> list DonorInfo.
Hypothesis partial_sort_ok : partial_sort_conforms closer (partial_sort closer).

Lemma selected_nonneg nDonor nDim G target :
  nDonor <= nPossibleDonor G ->
  Forall (fun d => 0 <= dist d)%Q (selected partial_sort nDonor nDim G target).
Proof.
  intros Hk.
  destruct (selection_spec partial_sort partial_sort_ok nDonor nDim G target Hk)
    as (P & _).
  pose proof (Forall_Permutation _ _ _ P (candidates_nonneg nDim G (coord_ptr target)))
    as H.
  apply Forall_app in H. tauto.
Qed.

Lemma denominator_pos eps nDonor nDim G target :
  (0 < eps)%Q -> 1 <= nDonor <= nPossibleDonor G ->
  (0 < denominator eps (selected partial_sort nDonor nDim G target))%Q.
Proof.
  intros He [H1 Hk]. unfold denominator. apply Qsum_pos.
  - pose proof (length_selected partial_sort (conforms_length partial_sort partial_sort_ok)
                              nDonor nDim G target Hk)
      as L.
    destruct (selected partial_sort nDonor nDim G target); simpl in *;
      [lia | discriminate].
  - apply Forall_map. eapply Forall_impl; [|apply selected_nonneg, Hk].
    intros d Hd. now apply numerator_pos.
Qed.

(** The record and the state after the body for a target with [nDonor]
    candidates at least: the selected donors, their numerators over the
    denominator, no division by zero. *)
Lemma vertex_body_weights nDonor eps nDim G target_node markTarget iVertexTarget
      target_vertex st :
  (0 < eps)%Q ->
  Domain (target_node (Node target_vertex)) = true ->
  length (donorInfo st) = nPossibleDonor G ->
  (Z.of_nat (nPossibleDonor G) <= INT_MAX)%Z ->
  1 <= nDonor <= nPossibleDonor G ->
  let sel := selected partial_sort nDonor nDim G (target_node (Node target_vertex)) in
  let r := vertex_body partial_sort nDonor eps nDim G target_node markTarget
                       iVertexTarget target_vertex st in
  fst r = mkCVertex (Node target_vertex)
            (map (fun d => Some (pidx d)) sel)
            (map (fun d => Some (proc d)) sel)
            (stored (map (fun d => (1 / (dist d + eps) / denominator eps sel)%Q) sel))
  /\ in_bounds (snd r) = in_bounds st
  /\ finite (snd r) = finite st.
Proof.
  intros He owned resized counted [H1 Hk] sel r. unfold r.
  rewrite (vertex_body_spec partial_sort (conforms_length partial_sort partial_sort_ok))
    by assumption.
  fold sel. cbn [fst snd in_bounds finite]. unfold stored. rewrite map_map.
  split; [reflexivity|]. split; [reflexivity|].
  rewrite !forallb_true, !andb_true_r; [reflexivity| |].
  - apply Forall_forall. intros i _.
    rewrite Qeq_bool_pos; [reflexivity|]. now apply denominator_pos.
  - eapply Forall_impl; [|apply (selected_nonneg nDonor nDim G _ Hk)].
    intros d Hd. cbv beta in *. rewrite Qeq_bool_pos; [reflexivity | lra].
Qed.
End Weights.

(* ------------------------------------------------------------------ *)
(** ** A routine that meets the standard *)



Lemma StronglySorted_app {A : Type} (R : A -> A -> Prop) (l1 l2 : list A) :
  StronglySorted R l1 -> StronglySorted R l2 ->
  (forall x y, In x l1 -> In y l2 -> R x y) ->
  StronglySorted R (l1 ++ l2).
Proof.
  induction 1 as [|a l1 S1 IH Ha]; intros S2 H; simpl; [exact S2|].
  constructor.
  - apply IH; [exact S2|]. intros x y Hx Hy. apply H; [now right | exact Hy].
  - apply Forall_app. split; [exact Ha|].
    apply Forall_forall. intros y Hy. apply H; [now left | exact Hy].
Qed.






(* ------------------------------------------------------------------ *)
(** ** Selections without ties *)

(** When the [k] closest candidates come first in scan order, in strictly
    ascending distance and strictly before all others, every selection that
    meets the standard is this prefix. *)
Lemma selection_unique (l1 l2 sel rej : list DonorInfo) :
  StronglySorted (fun a b => dist a < dist b)%Q (l1 ++ l2) ->
  Permutation (l1 ++ l2) (sel ++ rej) ->
  length sel = length l1 ->
  StronglySorted (fun a b => dist a <= dist b)%Q sel ->
  Forall (fun r => Forall (fun s => dist s <= dist r)%Q sel) rej ->
  sel = l1.
Proof.
  revert sel; induction l1 as [|a l1 IH]; intros sel S P L Ss F.
  - destruct sel; [reflexivity | discriminate].
  - destruct sel as [|x sel]; [discriminate|]. simpl in *.
    inversion S as [|? ? S' Ha]; subst. inversion Ss as [|? ? Ss' Hx]; subst.
    assert (Hmin : forall c, In c (x :: sel ++ rej) -> (dist x <= dist c)%Q).
    { intros c [<-|Hc]; [apply Qle_refl|]. apply in_app_or in Hc.
      destruct Hc as [Hc|Hc].
      - rewrite Forall_forall in Hx. now apply Hx.
      - rewrite Forall_forall in F. specialize (F c Hc). now inversion F. }
    assert (Hxa : x = a).
    { assert (Hin : In x (a :: l1 ++ l2))
        by (eapply Permutation_in; [apply Permutation_sym, P | now left]).
      destruct Hin as [<-|Hin]; [reflexivity|]. exfalso.
      rewrite Forall_forall in Ha. specialize (Ha x Hin).
      assert (Hle : (dist x <= dist a)%Q)
        by (apply Hmin; eapply Permutation_in; [exact P | now left]).
      lra. }
    subst x. f_equal. apply IH; auto.
    + eapply Permutation_cons_inv, P.
    + eapply Forall_impl; [|exact F]. intros r Hr. now inversion Hr.
Qed.

(* ------------------------------------------------------------------ *)
(** ** The heap routine of libstdc++ *)

Section HeapFacts.
Context {A : Type} (comp : A -> A -> bool).












End HeapFacts.

(* ------------------------------------------------------------------ *)
(** ** The heap routine meets the standard

    [lia] is given the equations of the division by 2 in the indices of
    parents and children. *)

#[local] Ltac Zify.zify_post_hook ::= Z.to_euclidean_division_equations.

Lemma update_idem {A : Type} (l : list A) i x :
  nth_error l i = Some x -> update l i x = l.
Proof.
  revert i; induction l as [|y l IH]; intros [|i] H; simpl in *; try discriminate.
  - now inversion H.
  - now rewrite IH.
Qed.

Lemma update_update {A : Type} (l : list A) i x y :
  update (update l i x) i y = update l i y.
Proof.
  revert i; induction l as [|z l IH]; intros [|i]; simpl; auto. now rewrite IH.
Qed.

Lemma nth_error_update {A : Type} (l : list A) i j x :
  nth_error (update l i x) j
  = if (i =? j) && (i <? length l) then Some x else nth_error l j.
Proof.
  destruct (i =? j) eqn:E.
  - apply Nat.eqb_eq in E. subst j. destruct (i <? length l) eqn:L; cbn [andb].
    + apply nth_error_update_eq. now apply Nat.ltb_lt.
    + apply Nat.ltb_ge in L. now rewrite update_ge.
  - apply Nat.eqb_neq in E. cbn [andb]. now apply nth_error_update_neq.
Qed.

Lemma skipn_update_lt {A : Type} (l : list A) i n x :
  i < n -> skipn n (update l i x) = skipn n l.
Proof.
  revert i n; induction l as [|y l IH]; intros [|i] [|n] H; simpl; auto; try lia.
  apply IH. lia.
Qed.

Lemma firstn_update_ge {A : Type} (l : list A) i n x :
  n <= i -> firstn n (update l i x) = firstn n l.
Proof.
  revert i n; induction l as [|y l IH]; intros [|i] [|n] H; simpl; auto; try lia.
  f_equal. apply IH. lia.
Qed.

Lemma firstn_update_lt {A : Type} (l : list A) i n x :
  i < n -> firstn n (update l i x) = update (firstn n l) i x.
Proof.
  revert i n; induction l as [|y l IH]; intros [|i] [|n] H; simpl; auto; try lia.
  f_equal. apply IH. lia.
Qed.

(** Putting [x] where [y] was and [y] aside. *)
Lemma update_cons_perm {A : Type} (l : list A) j x y :
  nth_error l j = Some y -> Permutation (y :: update l j x) (x :: l).
Proof.
  intros H. destruct (nth_error_decompose _ _ _ H) as [D L].
  set (l1 := firstn j l) in *. set (l2 := skipn (S j) l) in *.
  rewrite D, update_at by exact L.
  apply Permutation_trans with (y :: x :: l1 ++ l2).
  - apply perm_skip, Permutation_sym, Permutation_middle.
  - eapply Permutation_trans; [apply perm_swap|].
    apply perm_skip, Permutation_middle.
Qed.

(** Exchanging two elements of a list. *)
Lemma update_swap_perm {A : Type} (l : list A) i j x y :
  i <> j -> nth_error l i = Some x -> nth_error l j = Some y ->
  Permutation (update (update l i y) j x) l.
Proof.
  revert i j; induction l as [|z l IH]; intros [|i] [|j] Hij Hi Hj;
    simpl in *; try discriminate; try lia.
  - inversion Hi; subst. now apply update_cons_perm.
  - inversion Hj; subst. now apply update_cons_perm.
  - apply perm_skip. apply IH; auto.
Qed.

Section HeapCorrect.
Context {A : Type} (comp : A -> A -> bool).
Hypothesis comp_asym : forall x y, comp x y = true -> comp y x = false.
Hypothesis comp_trans :
  forall x y z, comp y x = false -> comp z y = false -> comp z x = false.

Lemma comp_irrefl x : comp x x = false.
Proof.
  destruct (comp x x) eqn:E; [|reflexivity].
  pose proof (comp_asym _ _ E). congruence.
Qed.

Lemma below_le h i : below h i -> h <= i.
Proof. induction 1; lia. Qed.

Lemma below_parent h i : below h i -> h < i -> below h ((i - 1) / 2).
Proof.
  intros B Hi. destruct B as [|j B|j B]; [lia| |].
  - replace ((2 * j + 1 - 1) / 2) with j by lia. exact B.
  - replace ((2 * j + 2 - 1) / 2) with j by lia. exact B.
Qed.

Lemma below_child h i c : below h i -> 0 < c -> (c - 1) / 2 = i -> below h c.
Proof.
  intros B Hc Hp.
  assert (E : c = 2 * i + 1 \/ c = 2 * i + 2) by lia.
  destruct E as [-> | ->]; now constructor.
Qed.

Lemma heap_hole_init h (a : list A) len :
  heap_from comp (S h) a len -> heap_hole comp h h a len.
Proof.
  intros H. split; [|lia].
  intros i x p Hi Hl Hp Hn Hx Hpx. apply (H i x p); auto. lia.
Qed.

(** The hole moves down to a child that no other child exceeds. *)
Lemma heap_hole_down h hole c y (a : list A) len :
  len <= length a -> h <= hole ->
  heap_hole comp h hole a len ->
  0 < c -> c < len -> (c - 1) / 2 = hole -> nth_error a c = Some y ->
  (forall s z, 0 < s -> s < len -> (s - 1) / 2 = hole -> nth_error a s = Some z ->
               comp y z = false) ->
  heap_hole comp h c (update a hole y) len.
Proof.
  intros Hlen Hh [HA HB] Hc Hcl Hcp Hy Hsib. split.
  - intros i x p Hi Hil Hp Hne Hx Hpx.
    rewrite nth_error_update in Hx, Hpx.
    destruct (Nat.eq_dec ((i - 1) / 2) hole) as [E|E].
    + (* a child of the old hole *)
      replace (hole =? (i - 1) / 2) with true in Hpx by (symmetry; apply Nat.eqb_eq; lia).
      replace (hole <? length a) with true in Hpx by (symmetry; apply Nat.ltb_lt; lia).
      cbn [andb] in Hpx. inversion Hpx; subst p.
      replace (hole =? i) with false in Hx by (symmetry; apply Nat.eqb_neq; lia).
      cbn [andb] in Hx. apply (Hsib i x); auto.
    + replace (hole =? (i - 1) / 2) with false in Hpx
        by (symmetry; apply Nat.eqb_neq; lia).
      cbn [andb] in Hpx.
      destruct (Nat.eq_dec i hole) as [Ei|Ei].
      * subst i.
        replace (hole =? hole) with true in Hx by (symmetry; apply Nat.eqb_refl).
        replace (hole <? length a) with true in Hx by (symmetry; apply Nat.ltb_lt; lia).
        cbn [andb] in Hx. inversion Hx; subst x.
        apply (HB ltac:(lia) c y p); auto.
      * replace (hole =? i) with false in Hx by (symmetry; apply Nat.eqb_neq; lia).
        cbn [andb] in Hx. apply (HA i x p); auto.
  - intros Hhc i x g Hi Hil Hp Hx Hg.
    rewrite nth_error_update in Hx, Hg.
    replace (hole =? (c - 1) / 2) with true in Hg by (symmetry; apply Nat.eqb_eq; lia).
    replace (hole <? length a) with true in Hg by (symmetry; apply Nat.ltb_lt; lia).
    cbn [andb] in Hg. inversion Hg; subst g.
    replace (hole =? i) with false in Hx by (symmetry; apply Nat.eqb_neq; lia).
    cbn [andb] in Hx. apply (HA i x y); auto; try lia.
    now rewrite Hp.
Qed.

(** The hole moves up to its parent. *)
Lemma heap_hole_up h hole y (a : list A) len :
  len <= length a -> hole < len -> h < hole -> h <= (hole - 1) / 2 ->
  (h < (hole - 1) / 2 -> h <= ((hole - 1) / 2 - 1) / 2) ->
  heap_hole comp h hole a len ->
  nth_error a ((hole - 1) / 2) = Some y ->
  heap_hole comp h ((hole - 1) / 2) (update a hole y) len.
Proof.
  intros Hlen Hhl Hh Hp Hpp [HA HB] Hy. split.
  - intros i x p Hi Hil Hip Hne Hx Hpx.
    rewrite nth_error_update in Hx, Hpx.
    destruct (Nat.eq_dec ((i - 1) / 2) hole) as [E|E].
    + replace (hole =? (i - 1) / 2) with true in Hpx by (symmetry; apply Nat.eqb_eq; lia).
      replace (hole <? length a) with true in Hpx by (symmetry; apply Nat.ltb_lt; lia).
      cbn [andb] in Hpx. inversion Hpx; subst p.
      replace (hole =? i) with false in Hx by (symmetry; apply Nat.eqb_neq; lia).
      cbn [andb] in Hx. apply (HB Hh i x y); auto.
    + replace (hole =? (i - 1) / 2) with false in Hpx
        by (symmetry; apply Nat.eqb_neq; lia).
      cbn [andb] in Hpx.
      assert (Ei : i <> hole) by (intros ->; apply Hne; reflexivity).
      replace (hole =? i) with false in Hx by (symmetry; apply Nat.eqb_neq; lia).
      cbn [andb] in Hx. apply (HA i x p); auto.
  - intros Hhp i x g Hi Hil Hip Hx Hg.
    rewrite nth_error_update in Hx, Hg.
    replace (hole =? ((hole - 1) / 2 - 1) / 2) with false in Hg
      by (symmetry; apply Nat.eqb_neq; lia).
    cbn [andb] in Hg.
    assert (Hyg : comp g y = false).
    { apply (HA ((hole - 1) / 2) y g); auto; try lia. }
    destruct (Nat.eq_dec i hole) as [Ei|Ei].
    + subst i.
      replace (hole =? hole) with true in Hx by (symmetry; apply Nat.eqb_refl).
      replace (hole <? length a) with true in Hx by (symmetry; apply Nat.ltb_lt; lia).
      cbn [andb] in Hx. inversion Hx; subst x. exact Hyg.
    + replace (hole =? i) with false in Hx by (symmetry; apply Nat.eqb_neq; lia).
      cbn [andb] in Hx.
      apply (comp_trans x y g); [|exact Hyg].
      apply (HA i x y); auto; try lia. now rewrite Hip.
Qed.

Lemma vperm_move (a0 a : list A) h hole j y :
  (forall x, Permutation (update a hole x) (update a0 h x)) ->
  hole <> j -> hole < length a -> nth_error a j = Some y ->
  forall x, Permutation (update (update a hole y) j x) (update a0 h x).
Proof.
  intros V Hne Hl Hy x. eapply Permutation_trans; [|apply V].
  rewrite <- (update_update a hole x y).
  apply update_swap_perm; [exact Hne | |].
  - apply nth_error_update_eq, Hl.
  - rewrite nth_error_update_neq by exact Hne. exact Hy.
Qed.

Lemma hole_inv_move (a0 a : list A) h len hole j y :
  hole_inv comp a0 h len a hole ->
  hole <> j -> j < len -> below h j -> nth_error a j = Some y ->
  heap_hole comp h j (update a hole y) len ->
  hole_inv comp a0 h len (update a hole y) j.
Proof.
  intros (Hlen & Hh & Hl & Hb & Hheap & V & F) Hne Hj Bj Hy Hheap'.
  repeat split; auto.
  - now rewrite length_update.
  - now apply below_le.
  - apply Hheap'.
  - apply Hheap'.
  - apply vperm_move; auto. lia.
  - rewrite skipn_update_lt by exact Hl. exact F.
Qed.

(** The loop of [__adjust_heap] takes the hole down to a node without a right
    child. *)
Lemma adjust_heap_loop_spec (a0 : list A) h len fuel : forall a hole,
  hole_inv comp a0 h len a hole -> len - hole <= fuel ->
  exists a' hole',
    StdLib.adjust_heap_loop comp fuel a hole hole len = (a', hole', hole') /\
    hole_inv comp a0 h len a' hole' /\ len <= 2 * hole' + 2.
Proof.
  induction fuel as [|fuel IH]; intros a hole Hinv Hfuel.
  - destruct Hinv as (_ & _ & Hl & _). lia.
  - cbn [StdLib.adjust_heap_loop].
    destruct (hole <? (len - 1) / 2) eqn:Hc.
    + apply Nat.ltb_lt in Hc.
      pose proof Hinv as (Hlen & Hh & Hl & Hb & Hheap & V & F).
      destruct (nth_error a (2 * (hole + 1))) as [r|] eqn:Er;
        [|apply nth_error_None in Er; lia].
      destruct (nth_error a (2 * (hole + 1) - 1)) as [l|] eqn:El;
        [|apply nth_error_None in El; lia].
      set (c := if comp r l then 2 * (hole + 1) - 1 else 2 * (hole + 1)).
      set (y := if comp r l then l else r).
      assert (Ey : nth_error a c = Some y)
        by (unfold c, y; destruct (comp r l); assumption).
      assert (Hcp : (c - 1) / 2 = hole) by (unfold c; destruct (comp r l); lia).
      assert (Hc0 : 0 < c) by (unfold c; destruct (comp r l); lia).
      assert (Hcl : c < len) by (unfold c; destruct (comp r l); lia).
      rewrite Ey.
      apply IH; [|lia].
      apply hole_inv_move; auto; try lia.
      * apply (below_child h hole c); auto.
      * apply (heap_hole_down h hole c y a len); auto.
        intros s z Hs Hsl Hsp Hz.
        assert (Es : s = 2 * (hole + 1) - 1 \/ s = 2 * (hole + 1)) by lia.
        unfold y. destruct (comp r l) eqn:Hrl; destruct Es as [-> | ->];
          rewrite ?El, ?Er in Hz; inversion Hz; subst z;
          auto using comp_irrefl.
    + apply Nat.ltb_ge in Hc. exists a, hole. split; [reflexivity|].
      split; [exact Hinv|]. lia.
Qed.

(** Filling the hole when no child exceeds [v] and [v] does not exceed the
    parent. *)
Lemma heap_hole_fill h hole v (a : list A) len :
  len <= length a -> hole < len -> h <= hole ->
  heap_hole comp h hole a len -> kids_le comp v hole a len ->
  (h < hole -> forall g, nth_error a ((hole - 1) / 2) = Some g -> comp g v = false) ->
  heap_from comp h (update a hole v) len.
Proof.
  intros Hlen Hl Hh [HA HB] Hk Hp i x p Hi Hil Hip Hx Hpx.
  rewrite nth_error_update in Hx, Hpx.
  destruct (Nat.eq_dec ((i - 1) / 2) hole) as [E|E].
  - replace (hole =? (i - 1) / 2) with true in Hpx by (symmetry; apply Nat.eqb_eq; lia).
    replace (hole <? length a) with true in Hpx by (symmetry; apply Nat.ltb_lt; lia).
    cbn [andb] in Hpx. inversion Hpx; subst p.
    replace (hole =? i) with false in Hx by (symmetry; apply Nat.eqb_neq; lia).
    cbn [andb] in Hx. apply (Hk i x); auto.
  - replace (hole =? (i - 1) / 2) with false in Hpx
      by (symmetry; apply Nat.eqb_neq; lia).
    cbn [andb] in Hpx.
    destruct (Nat.eq_dec i hole) as [Ei|Ei].
    + subst i.
      replace (hole =? hole) with true in Hx by (symmetry; apply Nat.eqb_refl).
      replace (hole <? length a) with true in Hx by (symmetry; apply Nat.ltb_lt; lia).
      cbn [andb] in Hx. inversion Hx; subst x.
      apply Hp; [lia | exact Hpx].
    + replace (hole =? i) with false in Hx by (symmetry; apply Nat.eqb_neq; lia).
      cbn [andb] in Hx. apply (HA i x p); auto.
Qed.

(** [__push_heap] takes the hole up as long as its parent is less than [v],
    and fills it. *)
Lemma push_heap_spec (a0 : list A) h len v fuel : forall a hole,
  hole_inv comp a0 h len a hole -> kids_le comp v hole a len -> hole < fuel ->
  heap_from comp h (StdLib.push_heap comp fuel a hole h v) len /\
  Permutation (StdLib.push_heap comp fuel a hole h v) (update a0 h v) /\
  skipn len (StdLib.push_heap comp fuel a hole h v) = skipn len a0.
Proof.
  induction fuel as [|fuel IH]; intros a hole Hinv Hk Hfuel; [lia|].
  pose proof Hinv as (Hlen & Hh & Hl & Hb & Hheap & V & F).
  cbn [StdLib.push_heap].
  destruct (nth_error a ((hole - 1) / 2)) as [p|] eqn:Ep;
    [|apply nth_error_None in Ep; lia].
  destruct ((h <? hole) && comp p v) eqn:Hc.
  - apply andb_true_iff in Hc. destruct Hc as [Hlt Hpv].
    apply Nat.ltb_lt in Hlt.
    pose proof (below_parent h hole Hb Hlt) as Bp.
    pose proof (below_le _ _ Bp) as Hhp.
    apply IH; [| |lia].
    + apply hole_inv_move; auto; try lia.
      apply heap_hole_up; auto.
      intros Hlt'. apply below_le. apply below_parent; auto.
    + intros i x Hi Hil Hip Hx. rewrite nth_error_update in Hx.
      destruct (Nat.eq_dec i hole) as [Ei|Ei].
      * subst i.
        replace (hole =? hole) with true in Hx by (symmetry; apply Nat.eqb_refl).
        replace (hole <? length a) with true in Hx by (symmetry; apply Nat.ltb_lt; lia).
        cbn [andb] in Hx. inversion Hx; subst x. now apply comp_asym.
      * replace (hole =? i) with false in Hx by (symmetry; apply Nat.eqb_neq; lia).
        cbn [andb] in Hx.
        apply (comp_trans x p v); [|now apply comp_asym].
        destruct Hheap as [HA _]. apply (HA i x p); auto; try lia.
        now rewrite Hip.
  - split; [|split].
    + apply heap_hole_fill; auto.
      intros Hlt g Hg. rewrite Ep in Hg. inversion Hg; subst g.
      apply andb_false_iff in Hc. destruct Hc as [Hc|Hc]; [|exact Hc].
      apply Nat.ltb_ge in Hc. lia.
    + apply V.
    + rewrite skipn_update_lt by exact Hl. exact F.
Qed.

(** [__adjust_heap]: with the children of the nodes after [h] in order, [v]
    put at [h] sinks to its place. *)
Lemma adjust_heap_spec (a0 : list A) h len v :
  h < len -> len <= length a0 -> heap_from comp (S h) a0 len ->
  heap_from comp h (StdLib.adjust_heap comp a0 h len v) len /\
  Permutation (StdLib.adjust_heap comp a0 h len v) (update a0 h v) /\
  skipn len (StdLib.adjust_heap comp a0 h len v) = skipn len a0.
Proof.
  intros Hh Hlen Hheap.
  assert (Hinv : hole_inv comp a0 h len a0 h).
  { repeat split; auto; try apply (heap_hole_init h a0 len Hheap); constructor. }
  destruct (adjust_heap_loop_spec a0 h len len a0 h Hinv ltac:(lia))
    as (a1 & h1 & E & Hinv1 & Hexit).
  unfold StdLib.adjust_heap. rewrite E.
  pose proof Hinv1 as (Hlen1 & Hh1 & Hl1 & Hb1 & Hheap1 & V1 & F1).
  destruct (Nat.even len && (h1 =? (len - 2) / 2)) eqn:Hc.
  - apply andb_true_iff in Hc. destruct Hc as [Hev Heq].
    apply Nat.eqb_eq in Heq. apply Nat.even_spec in Hev. destruct Hev as [k Hk].
    assert (Hc1 : 2 * (h1 + 1) - 1 = len - 1) by lia.
    destruct (nth_error a1 (2 * (h1 + 1) - 1)) as [y|] eqn:Ey;
      [|apply nth_error_None in Ey; lia].
    apply push_heap_spec; [| |lia].
    + apply hole_inv_move; auto; try lia.
      * apply (below_child h h1); auto; lia.
      * apply (heap_hole_down h h1 (2 * (h1 + 1) - 1) y a1 len); auto; try lia.
        intros s z Hs Hsl Hsp Hz.
        assert (Es : s = 2 * (h1 + 1) - 1) by lia. subst s.
        rewrite Ey in Hz. inversion Hz; subst z. apply comp_irrefl.
    + intros i x Hi Hil Hip Hx. lia.
  - apply push_heap_spec; [exact Hinv1 | | lia].
    intros i x Hi Hil Hip Hx. exfalso.
    assert (El : len = 2 * h1 + 2) by lia.
    apply andb_false_iff in Hc. destruct Hc as [Hc|Hc].
    + assert (Hev : Nat.even len = true)
        by (apply Nat.even_spec; exists (h1 + 1); lia).
      congruence.
    + apply Nat.eqb_neq in Hc. lia.
Qed.

Lemma heap_from_mono s s' (a : list A) len :
  s <= s' -> heap_from comp s a len -> heap_from comp s' a len.
Proof.
  intros Hs H i x p Hi Hil Hip. apply H; auto. lia.
Qed.

Lemma heap_from_shrink s (a : list A) len len' :
  len' <= len -> heap_from comp s a len -> heap_from comp s a len'.
Proof.
  intros Hl H i x p Hi Hil Hip. apply H; auto. lia.
Qed.

Lemma heap_from_ext s (a b : list A) len :
  (forall i, i < len -> nth_error b i = nth_error a i) ->
  heap_from comp s a len -> heap_from comp s b len.
Proof.
  intros E H i x p Hi Hil Hip Hx Hp.
  rewrite E in Hx by lia. rewrite E in Hp by lia. now apply (H i x p).
Qed.

(** The root of a heap is not exceeded by any of its nodes. *)
Lemma heap_max (a : list A) len t :
  heap_from comp 0 a len -> len <= length a -> nth_error a 0 = Some t ->
  forall i x, i < len -> nth_error a i = Some x -> comp t x = false.
Proof.
  intros H Hlen Ht i. induction i as [i IH] using lt_wf_ind. intros x Hi Hx.
  destruct (Nat.eq_dec i 0) as [->|Hne].
  - rewrite Ht in Hx. inversion Hx; subst. apply comp_irrefl.
  - destruct (nth_error a ((i - 1) / 2)) as [p|] eqn:Ep;
      [|apply nth_error_None in Ep; lia].
    apply (comp_trans x p t).
    + apply (H i x p); auto; lia.
    + apply (IH ((i - 1) / 2)); auto; lia.
Qed.

Lemma perm_firstn_of_skipn (a b : list A) n :
  Permutation a b -> skipn n a = skipn n b ->
  Permutation (firstn n a) (firstn n b).
Proof.
  intros P E. rewrite <- (firstn_skipn n a), <- (firstn_skipn n b), E in P.
  now apply Permutation_app_inv_r in P.
Qed.

Lemma make_heap_loop_spec len : forall parent (a : list A),
  parent < len -> len <= length a -> heap_from comp (S parent) a len ->
  heap_from comp 0 (StdLib.make_heap_loop comp parent a len) len /\
  Permutation (StdLib.make_heap_loop comp parent a len) a /\
  skipn len (StdLib.make_heap_loop comp parent a len) = skipn len a.
Proof.
  induction parent as [|parent IH]; intros a Hp Hlen H; cbn [StdLib.make_heap_loop];
    (destruct (nth_error a _) as [value|] eqn:Ev; [|apply nth_error_None in Ev; lia]);
    destruct (adjust_heap_spec a _ len value Hp Hlen H) as (H' & P & F);
    rewrite (update_idem a _ value Ev) in P.
  - auto.
  - destruct (IH (StdLib.adjust_heap comp a (S parent) len value)) as (H2 & P2 & F2);
      [lia | rewrite (Permutation_length P); exact Hlen | exact H' |].
    split; [exact H2|]. split; [|congruence].
    eapply Permutation_trans; eassumption.
Qed.

Lemma make_heap_spec (a : list A) len :
  len <= length a ->
  heap_from comp 0 (StdLib.make_heap comp a len) len /\
  Permutation (StdLib.make_heap comp a len) a /\
  skipn len (StdLib.make_heap comp a len) = skipn len a.
Proof.
  intros Hlen. unfold StdLib.make_heap. destruct (len <? 2) eqn:E.
  - apply Nat.ltb_lt in E. split; [|split; auto].
    intros i x p Hi Hil. lia.
  - apply Nat.ltb_ge in E. apply make_heap_loop_spec; [lia | exact Hlen |].
    intros i x p Hi Hil Hip. lia.
Qed.

(** [__pop_heap]: the root goes to [result], outside the heap, and the
    element that was there enters the heap. *)
Lemma pop_heap_spec (a : list A) len result value top :
  0 < len -> len <= result -> result < length a ->
  heap_from comp 0 a len ->
  nth_error a result = Some value -> nth_error a 0 = Some top ->
  heap_from comp 0 (StdLib.pop_heap comp a len result) len /\
  Permutation (StdLib.pop_heap comp a len result) a /\
  Permutation (firstn len (StdLib.pop_heap comp a len result))
              (update (firstn len a) 0 value) /\
  skipn len (StdLib.pop_heap comp a len result) = skipn len (update a result top).
Proof.
  intros H0 Hr Hl H Ev Et. unfold StdLib.pop_heap. rewrite Ev, Et.
  destruct (adjust_heap_spec (update a result top) 0 len value) as (H' & P & F).
  - exact H0.
  - rewrite length_update. lia.
  - apply heap_from_mono with 0; [lia|].
    apply heap_from_ext with a; [|exact H].
    intros i Hi. apply nth_error_update_neq. lia.
  - split; [exact H'|]. split; [|split; [|exact F]].
    + eapply Permutation_trans; [exact P|].
      apply update_swap_perm; [lia | exact Ev | exact Et].
    + assert (F' : skipn len (update (update a result top) 0 value)
                   = skipn len (update a result top))
        by (apply skipn_update_lt; exact H0).
      rewrite <- F' in F.
      pose proof (perm_firstn_of_skipn _ _ len P F) as P'.
      rewrite firstn_update_lt, firstn_update_ge in P' by lia. exact P'.
Qed.

Lemma In_firstn_nth (l : list A) n x :
  In x (firstn n l) -> exists k, k < n /\ nth_error l k = Some x.
Proof.
  revert n; induction l as [|y l IH]; intros [|n] H; simpl in H; try contradiction.
  destruct H as [->|H].
  - exists 0. split; [lia | reflexivity].
  - destruct (IH n H) as (k & Hk & E). exists (S k). split; [lia | exact E].
Qed.

Lemma In_skipn_nth (l : list A) n y :
  In y (skipn n l) -> exists k, n <= k /\ nth_error l k = Some y.
Proof.
  revert l; induction n as [|n IH]; intros l H.
  - apply In_nth_error in H. destruct H as [k E]. exists k. split; [lia | exact E].
  - destruct l as [|z l]; [contradiction|]. cbn [skipn] in H.
    destruct (IH l H) as (k & Hk & E). exists (S k). split; [lia | exact E].
Qed.

Lemma nth_error_skipn_eq (l l' : list A) n j :
  skipn n l = skipn n l' -> n <= j -> nth_error l j = nth_error l' j.
Proof.
  intros E Hj. replace j with (n + (j - n)) by lia.
  rewrite <- !nth_error_skipn. now rewrite E.
Qed.

Lemma In_update (l : list A) i x z :
  In z (update l i x) -> z = x \/ In z l.
Proof.
  revert i; induction l as [|y l IH]; intros [|i] H; simpl in *; try tauto.
  - destruct H as [<-|H]; auto.
  - destruct H as [<-|H]; auto. destruct (IH i H); auto.
Qed.

(** What [__heap_select] keeps, after the elements before [i]: a heap in
    [0, middle), none of the elements of [middle, i) less than its root. *)
Lemma heap_select_loop_spec (a0 : list A) middle : forall n i (a : list A),
  0 < middle -> middle <= i -> i + n = length a0 ->
  Permutation a a0 -> heap_from comp 0 a middle ->
  (forall j y t, middle <= j -> j < i -> nth_error a j = Some y ->
                 nth_error a 0 = Some t -> comp y t = false) ->
  let b := fold_left
             (fun a i =>
                match nth_error a i, nth_error a 0 with
                | Some x, Some top =>
                    if comp x top then StdLib.pop_heap comp a middle i else a
                | _, _ => a
                end) (seq i n) a in
  Permutation b a0 /\ heap_from comp 0 b middle /\
  (forall j y t, middle <= j -> nth_error b j = Some y ->
                 nth_error b 0 = Some t -> comp y t = false).
Proof.
  induction n as [|n IH]; intros i a Hm Hi Hn P H R; cbn [seq fold_left].
  - split; [exact P|]. split; [exact H|].
    intros j y t Hj Hy Ht. apply (R j y t); auto.
    assert (j < length a) by (apply nth_error_Some; congruence).
    rewrite (Permutation_length P) in *. lia.
  - pose proof (Permutation_length P) as L.
    destruct (nth_error a i) as [x|] eqn:Ex; [|apply nth_error_None in Ex; lia].
    destruct (nth_error a 0) as [top|] eqn:Et; [|apply nth_error_None in Et; lia].
    destruct (comp x top) eqn:Hc.
    + destruct (pop_heap_spec a middle i x top) as (H' & P' & Pf & F); auto; try lia.
      apply IH; auto; try lia.
      * eapply Permutation_trans; eassumption.
      * intros j y t Hj Hji Hy Ht.
        assert (Htop : comp top t = false).
        { assert (Hin : In t (firstn middle (StdLib.pop_heap comp a middle i))).
          { apply (nth_error_In _ 0).
            rewrite nth_error_firstn.
            replace (0 <? middle) with true by (symmetry; apply Nat.ltb_lt; lia).
            exact Ht. }
          apply (Permutation_in _ Pf) in Hin. apply In_update in Hin.
          destruct Hin as [->|Hin]; [now apply comp_asym|].
          apply In_firstn_nth in Hin. destruct Hin as (k & Hk & Ek).
          apply (heap_max a middle top H ltac:(lia) Et k t Hk Ek). }
        rewrite (nth_error_skipn_eq _ _ middle j F Hj) in Hy.
        rewrite nth_error_update in Hy.
        destruct (Nat.eq_dec i j) as [E|E].
        -- subst j. rewrite Nat.eqb_refl in Hy.
           replace (i <? length a) with true in Hy by (symmetry; apply Nat.ltb_lt; lia).
           cbn [andb] in Hy. inversion Hy; subst y. exact Htop.
        -- replace (i =? j) with false in Hy by (symmetry; apply Nat.eqb_neq; lia).
           cbn [andb] in Hy. apply (comp_trans t top y); [exact Htop|].
           apply (R j y top); auto. lia.
    + apply IH; auto; try lia.
      intros j y t Hj Hji Hy Ht. rewrite Et in Ht. inversion Ht; subst t.
      destruct (Nat.eq_dec i j) as [E|E].
      * subst j. rewrite Ex in Hy. inversion Hy; subst y. exact Hc.
      * apply (R j y top); auto. lia.
Qed.

Lemma heap_select_spec (a : list A) middle :
  0 < middle -> middle <= length a ->
  let b := StdLib.heap_select comp a middle in
  Permutation b a /\ heap_from comp 0 b middle /\
  Forall (fun y => Forall (fun x => comp y x = false) (firstn middle b))
         (skipn middle b).
Proof.
  intros Hm Hlen b.
  destruct (make_heap_spec a middle Hlen) as (H & P & _).
  destruct (heap_select_loop_spec a middle (length a - middle) middle
              (StdLib.make_heap comp a middle) Hm (le_n _) ltac:(lia) P H
              ltac:(intros; lia)) as (P' & H' & R).
  fold (StdLib.heap_select comp a middle) in P', H', R. fold b in P', H', R.
  split; [exact P'|]. split; [exact H'|].
  pose proof (Permutation_length P') as L.
  destruct (nth_error b 0) as [t|] eqn:Et; [|apply nth_error_None in Et; lia].
  apply Forall_forall. intros y Hy. apply Forall_forall. intros x Hx.
  apply In_skipn_nth in Hy. destruct Hy as (j & Hj & Ej).
  apply In_firstn_nth in Hx. destruct Hx as (k & Hk & Ek).
  apply (comp_trans x t y).
  - apply (heap_max b middle t H' ltac:(lia) Et k x Hk Ek).
  - apply (R j y t Hj Ej eq_refl).
Qed.

(** [__sort_heap] sorts a heap, and leaves the rest of the array alone. *)
Lemma sort_heap_spec : forall len (a : list A),
  len <= length a -> heap_from comp 0 a len ->
  Permutation (firstn len (StdLib.sort_heap comp a len)) (firstn len a) /\
  skipn len (StdLib.sort_heap comp a len) = skipn len a /\
  sorted_wrt comp (firstn len (StdLib.sort_heap comp a len)).
Proof.
  induction len as [|len IH]; intros a Hlen H.
  - simpl. repeat split; auto. constructor.
  - destruct len as [|n].
    + cbn [StdLib.sort_heap]. repeat split; auto.
      destruct a as [|x a]; simpl; repeat constructor.
    + change (StdLib.sort_heap comp a (S (S n)))
        with (StdLib.sort_heap comp (StdLib.pop_heap comp a (S n) (S n)) (S n)).
      destruct (nth_error a (S n)) as [value|] eqn:Ev;
        [|apply nth_error_None in Ev; lia].
      destruct (nth_error a 0) as [top|] eqn:Et; [|apply nth_error_None in Et; lia].
      destruct (pop_heap_spec a (S n) (S n) value top) as (H1 & P1 & Pf & F);
        auto; try lia.
      { apply heap_from_shrink with (S (S n)); [lia | exact H]. }
      set (a1 := StdLib.pop_heap comp a (S n) (S n)) in *.
      destruct (IH a1) as (P2 & F2 & S2);
        [rewrite (Permutation_length P1); lia | exact H1 |].
      set (b := StdLib.sort_heap comp a1 (S n)) in *.
      assert (Eb : nth_error b (S n) = Some top).
      { rewrite (nth_error_skipn_eq b a1 (S n) (S n) F2 (le_n _)).
        rewrite (nth_error_skipn_eq a1 _ (S n) (S n) F (le_n _)).
        apply nth_error_update_eq. lia. }
      assert (Hmax : forall x, In x (firstn (S n) b) -> comp top x = false).
      { intros x Hx. apply (Permutation_in _ P2) in Hx.
        apply (Permutation_in _ Pf) in Hx. apply In_update in Hx.
        destruct Hx as [->|Hx].
        - apply (heap_max a (S (S n)) top H Hlen Et (S n) value); [lia | exact Ev].
        - apply In_firstn_nth in Hx. destruct Hx as (k & Hk & Ek).
          apply (heap_max a (S (S n)) top H Hlen Et k x); [lia | exact Ek]. }
      rewrite (firstn_S_snoc _ _ _ Eb), (firstn_S_snoc _ _ _ Ev).
      split; [|split].
      * eapply Permutation_trans; [apply Permutation_app_comm|]. cbn [app].
        eapply Permutation_trans;
          [apply perm_skip; eapply Permutation_trans; [exact P2 | exact Pf]|].
        eapply Permutation_trans; [apply update_cons_perm|].
        -- rewrite nth_error_firstn.
           replace (0 <? S n) with true by reflexivity. exact Et.
        -- change (value :: firstn (S n) a) with ([value] ++ firstn (S n) a).
           apply Permutation_app_comm.
      * change (S (S n)) with (1 + S n). rewrite <- !skipn_skipn.
        rewrite F2, F, skipn_skipn. rewrite skipn_skipn.
        apply skipn_update_lt. lia.
      * apply StronglySorted_app; [exact S2 | repeat constructor |].
        intros x y Hx [<-|[]]. now apply Hmax.
Qed.

(** The heap selection and sort of libstdc++ meets the standard's contract
    for [partial_sort]. *)
Lemma heap_partial_sort_post middle (a : list A) :
  middle <= length a ->
  partial_sort_post comp middle a (StdLib.partial_sort comp middle a).
Proof.
  intros Hlen. unfold partial_sort_post, StdLib.partial_sort.
  destruct middle as [|m].
  - split; [reflexivity|]. split; [constructor|].
    apply Forall_forall. intros; constructor.
  - destruct (heap_select_spec a (S m) ltac:(lia) Hlen) as (P & H & R).
    set (b := StdLib.heap_select comp a (S m)) in *.
    destruct (sort_heap_spec (S m) b) as (P2 & F2 & S2);
      [rewrite (Permutation_length P); exact Hlen | exact H |].
    set (c := StdLib.sort_heap comp b (S m)) in *.
    split; [|split; [exact S2|]].
    + apply Permutation_sym. eapply Permutation_trans; [|exact P].
      rewrite <- (firstn_skipn (S m) c), <- (firstn_skipn (S m) b), F2.
      now apply Permutation_app_tail.
    + rewrite F2. eapply Forall_impl; [|exact R]. intros y Hy. cbv beta in *.
      rewrite Forall_forall in *. intros x Hx. apply Hy.
      apply (Permutation_in _ P2 Hx).
Qed.
End HeapCorrect.

Lemma heap_partial_sort_conforms :
  partial_sort_conforms closer (StdLib.partial_sort closer).
Proof.
  intros middle a Hlen. apply heap_partial_sort_post; [| |exact Hlen].
  - intros x y H. unfold closer in *. apply su2_lt_iff in H.
    apply su2_lt_false_iff. now apply QArith_base.Qlt_le_weak.
  - intros x y z H1 H2. unfold closer in *.
    apply su2_lt_false_iff in H1, H2. apply su2_lt_false_iff.
    eapply QArith_base.Qle_trans; eassumption.
Qed.

(* ------------------------------------------------------------------ *)
(** ** Ties *)


Lemma scan_order_sorted (G : Gathered) : StronglySorted scan_before (scan_order G).
Proof.
  unfold scan_order.
  assert (Hrow : forall p k a, StronglySorted scan_before (map (pair p) (seq a k))).
  { intros p k; induction k as [|k IH]; intros a; simpl; constructor; [apply IH|].
    apply Forall_forall. intros s Hs. apply in_map_iff in Hs.
    destruct Hs as (j & <- & Hj). apply in_seq in Hj. right. simpl. lia. }
  assert (H : forall (count : nat -> nat) n start,
             StronglySorted scan_before
               (flat_map (fun p => map (pair p) (seq 0 (count p))) (seq start n))).
  { intros count. induction n as [|n IH]; intros start; simpl; [constructor|].
    apply StronglySorted_app; [apply Hrow | apply IH |].
    intros s s' Hs Hs'. apply in_map_iff in Hs. destruct Hs as (j & <- & _).
    apply in_flat_map in Hs'. destruct Hs' as (p & Hp & Hs').
    apply in_map_iff in Hs'. destruct Hs' as (j' & <- & _).
    apply in_seq in Hp. left. simpl. lia. }
  apply (H (fun p => nth p (Buffer_Receive_nVertex_Donor G) 0)).
Qed.

(* ================================================================== *)
(** * The engine against its specification *)















(* ------------------------------------------------------------------ *)
(** ** The run on the small interface *)

Lemma vertex_body_halo partial_sort nDonor eps nDim G target_node markTarget
      iVertexTarget target_vertex st :
  Domain (target_node (Node target_vertex)) = false ->
  vertex_body partial_sort nDonor eps nDim G target_node markTarget iVertexTarget
              target_vertex st = (target_vertex, st).
Proof. intros H. unfold vertex_body. now rewrite H. Qed.

Lemma example_selected partial_sort :
  partial_sort_conforms closer (partial_sort closer) ->
  selected partial_sort 2 1 Example.G (Example.target_node 0)
  = [mkDonorInfo 1%Q 10%Z 0%Z; mkDonorInfo 4%Q 11%Z 0%Z].
Proof.
  intros ok.
  assert (Hk : 2 <= nPossibleDonor Example.G) by (vm_compute; lia).
  destruct (selection_spec partial_sort ok 2 1 Example.G (Example.target_node 0) Hk)
    as (P & L & S & F).
  eapply (selection_unique _ [mkDonorInfo 9%Q 12%Z 1%Z]); try eassumption.
  repeat constructor.
Qed.

Lemma example_selected_01 partial_sort :
  partial_sort_conforms closer (partial_sort closer) ->
  selected partial_sort 2 1 Example.G_01 (Example.target_node 0)
  = [mkDonorInfo 0%Q 20%Z 0%Z; mkDonorInfo 1%Q 21%Z 0%Z].
Proof.
  intros ok.
  assert (Hk : 2 <= nPossibleDonor Example.G_01) by (vm_compute; lia).
  destruct (selection_spec partial_sort ok 2 1 Example.G_01 (Example.target_node 0) Hk)
    as (P & L & S & F).
  eapply (selection_unique _ []); try eassumption.
  repeat constructor.
Qed.

(** The run of the engine on a small interface comes down to the body of the
    loop for its owned vertex. *)
Ltac run_small_interface partial_sort ok G :=
  unfold Set_TransferCoeff;
  change (Z.to_nat (nDonor_of (Example.config 2))) with 2;
  change (Z.to_nat (Marker_n_ZoneInterface (Example.config 2) / 2)) with 2;
  cbn [seq fold_left];
  unfold marker_body at 2;
  cbn -[vertex_body gather local_donors resize];
  match goal with
  | |- context [gather ?c 1 1 ?l] => change (gather c 1 1 l) with G
  end;
  let n := eval vm_compute in (nPossibleDonor G) in
  change (nPossibleDonor G) with n;
  match goal with
  | |- context [vertex_body partial_sort 2 ?e 1 G Example.target_node ?m ?i
                            Example.owned_vertex ?s] =>
      let Hr := fresh "Hr" in
      let Hb := fresh "Hb" in
      let Hf := fresh "Hf" in
      let v := fresh "v" in
      let th := fresh "th" in
      destruct (vertex_body_weights partial_sort ok 2 e 1 G Example.target_node
                  m i Example.owned_vertex s eps_pos eq_refl eq_refl
                  ltac:(vm_compute; discriminate) ltac:(vm_compute; lia))
        as (Hr & Hb & Hf);
      destruct (vertex_body partial_sort 2 e 1 G Example.target_node m i
                            Example.owned_vertex s) as [v th];
      cbn [fst snd in_bounds finite] in Hr, Hb, Hf;
      change (Node Example.owned_vertex) with 0 in Hr;
      rewrite (vertex_body_halo partial_sort 2 e 1 G Example.target_node m 1
                 Example.halo_vertex th eq_refl);
      subst v
  end.

(** C4.  One dimension, the target at 0, the donors 10, 11, 12 at 1, 2, 3
    (squared distances 1, 4, 9), two donors asked for: the run selects the
    donors at the squared distances 1 and 4 and stores the weights
    [(1/(1+eps)) / (1/(1+eps) + 1/(4+eps))] and its complement to 1, which are
    0.8 and 0.2 up to less than [eps]. *)
Theorem worked_example :
  forall partial_sort, partial_sort_conforms closer (partial_sort closer) ->
  let eps := passivedouble_epsilon in
  let st := Set_TransferCoeff partial_sort Example.comm (Example.config 2)
                              (Example.config 0) Example.donor_geometry
                              Example.target_geometry in
  selected partial_sort 2 1 Example.G (Example.target_node 0)
  = [mkDonorInfo 1%Q 10%Z 0%Z; mkDonorInfo 4%Q 11%Z 0%Z] /\
  exists w1 w2,
    target_vertices st
    = [[mkCVertex 0 [Some 10%Z; Some 11%Z] [Some 0%Z; Some 0%Z] [Some w1; Some w2];
        Example.halo_vertex]] /\
    (w1 == 1 / (1 + eps) / (1 / (1 + eps) + 1 / (4 + eps)))%Q /\
    (w2 == 1 - w1)%Q /\
    (Qabs (w1 - (8 # 10)) < eps)%Q /\
    (Qabs (w2 - (2 # 10)) < eps)%Q /\
    in_bounds (thread st) = true /\ finite (thread st) = true.
Proof.
  intros partial_sort ok eps st.
  pose proof (example_selected partial_sort ok) as Hsel.
  split; [exact Hsel|].
  unfold st. run_small_interface partial_sort ok Example.G.
  rewrite Hsel.
  cbn -[Qabs Qlt Qeq Qdiv Qplus Qminus Qinv denominator passivedouble_epsilon].
  rewrite Hb, Hf.
  eexists. eexists. split; [reflexivity|].
  repeat split; vm_compute; reflexivity.
Qed.

Lemma worked_example_witness :
  in_bounds (thread (Set_TransferCoeff (@StdLib.partial_sort DonorInfo)
                       Example.comm (Example.config 2) (Example.config 0)
                       Example.donor_geometry Example.target_geometry)) = true.
Proof.
  destruct (worked_example (@StdLib.partial_sort DonorInfo)
              heap_partial_sort_conforms)
    as (_ & w1 & w2 & _ & _ & _ & _ & _ & H & _).
  exact H.
Defined.

(** C6.  Two donors asked for, the donors 20 and 21 at the squared distances
    0 and 1 from the target: the weight stored for the coincident donor is
    [(1/eps) / (1/eps + 1/(1+eps))], which exceeds 0.999999. *)
Theorem coincident_donor_dominates :
  forall partial_sort, partial_sort_conforms closer (partial_sort closer) ->
  let eps := passivedouble_epsilon in
  let st := Set_TransferCoeff partial_sort Example.comm_01 (Example.config 2)
                              (Example.config 0) Example.donor_geometry_01
                              Example.target_geometry in
  selected partial_sort 2 1 Example.G_01 (Example.target_node 0)
  = [mkDonorInfo 0%Q 20%Z 0%Z; mkDonorInfo 1%Q 21%Z 0%Z] /\
  exists w0 w1,
    target_vertices st
    = [[mkCVertex 0 [Some 20%Z; Some 21%Z] [Some 0%Z; Some 0%Z] [Some w0; Some w1];
        Example.halo_vertex]] /\
    (w0 == 1 / eps / (1 / eps + 1 / (1 + eps)))%Q /\
    (999999 # 1000000 < w0)%Q /\
    in_bounds (thread st) = true /\ finite (thread st) = true.
Proof.
  intros partial_sort ok eps st.
  pose proof (example_selected_01 partial_sort ok) as Hsel.
  split; [exact Hsel|].
  unfold st. run_small_interface partial_sort ok Example.G_01.
  rewrite Hsel.
  cbn -[Qabs Qlt Qeq Qdiv Qplus Qminus Qinv denominator passivedouble_epsilon].
  rewrite Hb, Hf.
  eexists. eexists. split; [reflexivity|].
  repeat split; vm_compute; reflexivity.
Qed.

Lemma coincident_donor_dominates_witness :
  finite (thread (Set_TransferCoeff (@StdLib.partial_sort DonorInfo)
                    Example.comm_01 (Example.config 2) (Example.config 0)
                    Example.donor_geometry_01 Example.target_geometry)) = true.
Proof.
  destruct (coincident_donor_dominates (@StdLib.partial_sort DonorInfo)
              heap_partial_sort_conforms)
    as (_ & w0 & w1 & _ & _ & _ & _ & H).
  exact H.
Defined.

(* ------------------------------------------------------------------ *)
(** ** The loops over the vertices and over the markers *)

Section Loops.
Variable partial_sort :
  (DonorInfo -> DonorInfo -> bool) -> nat -> list DonorInfo -> list DonorInfo.
Variables (nDonor : nat) (eps : su2double) (nDim : nat) (G : Gathered).
Variables (target_node : nat -> CPoint) (markTarget : Z).

(** What the body leaves of the vertex and adds to the trace. *)
Lemma vertex_body_frame iVertexTarget target_vertex st :
  let r := vertex_body partial_sort nDonor eps nDim G target_node markTarget
                       iVertexTarget target_vertex st in
  Node (fst r) = Node target_vertex /\
  (Domain (target_node (Node target_vertex)) = false ->
   r = (target_vertex, st)) /\
  (Domain (target_node (Node target_vertex)) = true ->
   trace (snd r) = trace st ++ [EvScan markTarget iVertexTarget;
                                EvAllocate_DonorInfo markTarget iVertexTarget nDonor]).
Proof.
  intros r. destruct (Domain (target_node (Node target_vertex))) eqn:owned.
  - split; [|split; [discriminate|]].
    + destruct (vertex_body_record partial_sort nDonor eps nDim G target_node
                  markTarget iVertexTarget target_vertex st owned)
        as (points & procs & coeffs & Hr & _).
      fold r in Hr. now rewrite Hr.
    + intros _. unfold r, vertex_body. rewrite owned. cbn [negb].
      destruct (compute_all_distances nDim G _ (donorInfo st)) as [[d1 i1] ok1].
      destruct (find_k_closest partial_sort nDonor d1) as [d2 ok2].
      destruct (compute_numerators eps nDonor d2) as [[[d3 den] ok3] fin3].
      destruct (set_coefficients nDonor d3 den _) as [[v ok4] fin4].
      reflexivity.
  - unfold r. rewrite vertex_body_halo by exact owned.
    split; [reflexivity|]. split; [reflexivity | discriminate].
Qed.

(** The loop over the vertices: it keeps the nodes, leaves the halo
    vertices as they are, and adds to the trace a scan and an allocation of
    [nDonor] slots for owned vertices only. *)
Lemma vertex_loop_spec vs : forall iVertexTarget st,
  let r := vertex_loop partial_sort nDonor eps nDim G target_node markTarget
                       iVertexTarget vs st in
  map Node (fst r) = map Node vs /\
  (forall k v, nth_error vs k = Some v ->
               Domain (target_node (Node v)) = false ->
               nth_error (fst r) k = Some v) /\
  exists evs,
    trace (snd r) = trace st ++ evs /\
    forall e, In e evs ->
      exists k v, nth_error vs k = Some v /\
                  Domain (target_node (Node v)) = true /\
                  (e = EvScan markTarget (iVertexTarget + k) \/
                   e = EvAllocate_DonorInfo markTarget (iVertexTarget + k) nDonor).
Proof.
  induction vs as [|tv vs IH]; intros i st; cbn [vertex_loop].
  - split; [reflexivity|]. split; [intros [|k] v H; discriminate|].
    exists []. cbn [fst snd]. rewrite app_nil_r. split; [reflexivity|].
    intros e [].
  - destruct (vertex_body_frame i tv st) as (Hn & Hh & Ho).
    destruct (vertex_body partial_sort nDonor eps nDim G target_node markTarget i tv st)
      as [v st1].
    cbn [fst snd] in Hn, Hh, Ho.
    specialize (IH (S i) st1). cbv zeta in IH.
    destruct (vertex_loop partial_sort nDonor eps nDim G target_node markTarget
                          (S i) vs st1) as [vs' st2].
    cbn [fst snd] in *. destruct IH as (IHn & IHh & evs & IHt & IHe).
    split; [cbn [map]; now rewrite Hn, IHn|]. split.
    + intros [|k] w Hk Hw; cbn [nth_error] in *.
      * inversion Hk; subst. specialize (Hh Hw). now inversion Hh.
      * now apply IHh.
    + destruct (Domain (target_node (Node tv))) eqn:owned.
      * exists ([EvScan markTarget i; EvAllocate_DonorInfo markTarget i nDonor] ++ evs).
        split; [rewrite IHt, Ho by reflexivity; now rewrite <- app_assoc|].
        intros e He. apply in_app_or in He. destruct He as [He|He].
        -- exists 0, tv. rewrite Nat.add_0_r. split; [reflexivity|].
           split; [exact owned|]. simpl in He. intuition.
        -- destruct (IHe e He) as (k & w & Hk & Hw & Hev).
           exists (S k), w. rewrite Nat.add_succ_r. cbn [nth_error]. auto.
      * specialize (Hh eq_refl). inversion Hh; subst.
        exists evs. split; [exact IHt|].
        intros e He. destruct (IHe e He) as (k & w & Hk & Hw & Hev).
        exists (S k), w. rewrite Nat.add_succ_r. cbn [nth_error]. auto.
Qed.
End Loops.

Lemma nth_update_same {A : Type} (l : list A) i x d :
  i < length l -> nth i (update l i x) d = x.
Proof. apply nth_update_eq. Qed.

Lemma map_nth_error_Node (vs vs0 : list CVertex) k v :
  map Node vs = map Node vs0 -> nth_error vs k = Some v ->
  exists v0, nth_error vs0 k = Some v0 /\ Node v0 = Node v.
Proof.
  intros E H. apply (f_equal (fun l => nth_error l k)) in E.
  rewrite !nth_error_map, H in E. cbn in E.
  destruct (nth_error vs0 k) as [v0|]; [|discriminate].
  exists v0. split; [reflexivity|]. cbn in E. congruence.
Qed.

Section Markers.
Variable partial_sort :
  (DonorInfo -> DonorInfo -> bool) -> nat -> list DonorInfo -> list DonorInfo.
Variables (nDonor : nat) (eps : su2double) (comm : Communicator).
Variables (config_donor config_target : CConfig).
Variables (donor_geometry target_geometry : CGeometry).

(** A marker that fails the gate leaves the state as it is. *)
Lemma marker_body_skip iMarkerInt st :
  CheckInterfaceBoundary (Find_InterfaceMarker config_donor iMarkerInt)
                         (Find_InterfaceMarker config_target iMarkerInt) = false ->
  marker_body partial_sort nDonor eps comm config_donor config_target
              donor_geometry target_geometry iMarkerInt st = st.
Proof. intros H. unfold marker_body. now rewrite H. Qed.

Lemma marker_body_invariant iMarkerInt st :
  run_invariant target_geometry nDonor st ->
  run_invariant target_geometry nDonor
    (marker_body partial_sort nDonor eps comm config_donor config_target
                 donor_geometry target_geometry iMarkerInt st).
Proof.
  intros (In & Ih & Ie). unfold marker_body.
  set (markDonor := Find_InterfaceMarker config_donor iMarkerInt).
  set (markTarget := Find_InterfaceMarker config_target iMarkerInt).
  destruct (CheckInterfaceBoundary markDonor markTarget) eqn:Hgate; cbn [negb];
    [|now repeat split].
  set (nVertexDonor := if (markDonor =? -1)%Z then 0
                       else GetnVertex donor_geometry markDonor).
  set (G := gather comm (nDim donor_geometry) iMarkerInt
                   (local_donors donor_geometry markDonor nVertexDonor)).
  set (m := Z.to_nat markTarget).
  set (th1 := mkThread _ _ _ _).
  set (vs := firstn _ (nth m (target_vertices st) [])).
  pose proof (vertex_loop_spec partial_sort nDonor eps (nDim donor_geometry) G
                (node target_geometry) markTarget vs 0 th1) as H.
  cbv zeta in H.
  destruct (vertex_loop partial_sort nDonor eps (nDim donor_geometry) G
                        (node target_geometry) markTarget 0 vs th1) as [vs' th2].
  cbn [fst snd] in H. destruct H as (Hn & Hh & evs & Ht & He).
  destruct (markTarget =? -1)%Z eqn:Hmt.
  - (* no target marker on this rank: no vertex is visited *)
    assert (Hvs : vs = []) by reflexivity.
    rewrite Hvs in *. destruct vs'; [|discriminate].
    assert (Hevs : evs = []).
    { destruct evs as [|e evs]; [reflexivity|].
      destruct (He e (or_introl eq_refl)) as ([|k] & v & Hk & _); discriminate. }
    subst evs. rewrite app_nil_r in Ht.
    split; [exact In|]. split; [exact Ih|].
    cbn [thread log trace]. rewrite Ht. cbn [trace th1 log].
    repeat (apply Forall_app; split); auto; repeat constructor; exact Hgate.
  - assert (Hvs : vs = nth m (target_vertices st) [])
      by (unfold vs; apply firstn_all).
    assert (Hnew : forall iMarker,
               nth iMarker (update (target_vertices st) m vs') []
               = if iMarker =? m then vs' else nth iMarker (target_vertices st) []).
    { intros iMarker. destruct (iMarker =? m) eqn:E.
      - apply Nat.eqb_eq in E. subst iMarker.
        destruct (Nat.lt_ge_cases m (length (target_vertices st))) as [Hl|Hl].
        + now apply nth_update_same.
        + rewrite update_ge by exact Hl.
          rewrite nth_overflow in Hvs |- * by exact Hl.
          rewrite Hvs in Hn. destruct vs'; [reflexivity | discriminate].
      - apply Nat.eqb_neq in E. apply nth_update_neq. congruence. }
    split; [|split].
    + intros iMarker. cbn [target_vertices]. rewrite Hnew.
      destruct (iMarker =? m) eqn:E; [|apply In].
      apply Nat.eqb_eq in E. subst iMarker. now rewrite Hn, Hvs.
    + intros iMarker iVertex v Hv Hd. cbn [target_vertices]. rewrite Hnew.
      destruct (iMarker =? m) eqn:E; [|now apply Ih].
      apply Nat.eqb_eq in E. subst iMarker.
      apply Hh; [|exact Hd]. rewrite Hvs. now apply Ih.
    + cbn [thread log trace]. rewrite Ht. cbn [trace th1 log].
      repeat (apply Forall_app; split); auto;
        try (repeat constructor; exact Hgate).
      apply Forall_forall. intros e Hin.
      destruct (He e Hin) as (k & v & Hk & Hd & Hev).
      rewrite Hvs in Hk.
      destruct (map_nth_error_Node _ _ k v (In m) Hk) as (v0 & Hk0 & Hn0).
      assert (Hex : exists v, vertex_at (vertex target_geometry) markTarget k = Some v /\
                              Domain (node target_geometry (Node v)) = true).
      { exists v0. split; [exact Hk0 | now rewrite Hn0]. }
      destruct Hev as [-> | ->]; cbn [event_ok Nat.add]; auto.
Qed.

Lemma marker_loop_invariant (l : list nat) st :
  run_invariant target_geometry nDonor st ->
  run_invariant target_geometry nDonor
    (fold_left
       (fun st iMarkerInt =>
          marker_body partial_sort nDonor eps comm config_donor config_target
                      donor_geometry target_geometry (Z.of_nat iMarkerInt) st)
       l st).
Proof.
  revert st; induction l as [|i l IH]; intros st H; cbn [fold_left]; [exact H|].
  apply IH, marker_body_invariant, H.
Qed.
End Markers.

Lemma Set_TransferCoeff_invariant partial_sort comm config_donor config_target
      donor_geometry target_geometry :
  run_invariant target_geometry (Z.to_nat (nDonor_of config_donor))
    (Set_TransferCoeff partial_sort comm config_donor config_target
                       donor_geometry target_geometry).
Proof.
  unfold Set_TransferCoeff. apply marker_loop_invariant.
  split; [reflexivity|]. split; [auto | constructor].
Qed.

(** C7.  The number of donors that the run uses is the larger of the
    configured number of nearest neighbours and 1, so it is at least 1 for
    every configuration, a configured 0 included.  It is computed once: the
    run is the loop over the interfaces with this one number, and every
    record that the run allocates has that many slots. *)
Theorem donor_count_fixed :
  forall partial_sort comm config_donor config_target donor_geometry target_geometry,
    let k := nDonor_of config_donor in
    let st := Set_TransferCoeff partial_sort comm config_donor config_target
                                donor_geometry target_geometry in
    k = Z.max (NumNearestNeighbors config_donor) 1 /\
    (1 <= k)%Z /\
    (NumNearestNeighbors config_donor = 0%Z -> k = 1%Z) /\
    st = fold_left
           (fun st iMarkerInt =>
              marker_body partial_sort (Z.to_nat k) passivedouble_epsilon comm
                          config_donor config_target donor_geometry target_geometry
                          (Z.of_nat iMarkerInt) st)
           (seq 1 (Z.to_nat (Marker_n_ZoneInterface config_donor / 2)))
           (mkEngine (vertex target_geometry) (mkThread [] true true [])) /\
    (forall markTarget iVertexTarget n,
        In (EvAllocate_DonorInfo markTarget iVertexTarget n) (trace (thread st)) ->
        Z.of_nat n = k).
Proof.
  intros partial_sort comm config_donor config_target donor_geometry target_geometry
         k st.
  assert (H1 : (1 <= k)%Z) by (unfold k, nDonor_of; lia).
  split; [reflexivity|]. split; [exact H1|].
  split; [intros E; unfold k, nDonor_of; rewrite E; reflexivity|].
  split; [reflexivity|].
  intros markTarget iVertexTarget n Hin.
  destruct (Set_TransferCoeff_invariant partial_sort comm config_donor config_target
              donor_geometry target_geometry) as (_ & _ & He).
  rewrite Forall_forall in He. specialize (He _ Hin).
  destruct He as [-> _]. fold k. lia.
Qed.

(** C9.  A target vertex whose node is not owned by this rank is skipped by
    the body of the loop, which returns the vertex and the thread as they
    were; after the whole run the vertex is what it was before, and the trace
    holds no scan and no allocation for it. *)
Theorem halo_vertices_untouched :
  forall partial_sort comm config_donor config_target donor_geometry target_geometry
         markTarget iVertexTarget v,
    vertex_at (vertex target_geometry) markTarget iVertexTarget = Some v ->
    Domain (node target_geometry (Node v)) = false ->
    let st := Set_TransferCoeff partial_sort comm config_donor config_target
                                donor_geometry target_geometry in
    (forall nDonor eps nDim G th,
        vertex_body partial_sort nDonor eps nDim G (node target_geometry)
                    markTarget iVertexTarget v th = (v, th)) /\
    vertex_at (target_vertices st) markTarget iVertexTarget = Some v /\
    ~ In (EvScan markTarget iVertexTarget) (trace (thread st)) /\
    (forall n, ~ In (EvAllocate_DonorInfo markTarget iVertexTarget n) (trace (thread st))).
Proof.
  intros partial_sort comm config_donor config_target donor_geometry target_geometry
         markTarget iVertexTarget v Hv Hd st.
  destruct (Set_TransferCoeff_invariant partial_sort comm config_donor config_target
              donor_geometry target_geometry) as (_ & Ih & He).
  fold st in Ih, He. rewrite Forall_forall in He.
  split; [intros; now apply vertex_body_halo|].
  split; [apply Ih; assumption|].
  split.
  - intros Hin. destruct (He _ Hin) as (v' & Hv' & Hd').
    rewrite Hv in Hv'. inversion Hv'; subst. congruence.
  - intros n Hin. destruct (He _ Hin) as (_ & v' & Hv' & Hd').
    rewrite Hv in Hv'. inversion Hv'; subst. congruence.
Qed.

(** The halo vertex of the small interface keeps its record. *)
Lemma halo_vertices_untouched_witness :
  vertex_at (vertex Example.target_geometry) 0 1 = Some Example.halo_vertex /\
  vertex_at (target_vertices
               (Set_TransferCoeff (@StdLib.partial_sort DonorInfo) Example.comm
                  (Example.config 2) (Example.config 0) Example.donor_geometry
                  Example.target_geometry)) 0 1
  = Some Example.halo_vertex.
Proof.
  split; [reflexivity|].
  apply (halo_vertices_untouched
           (@StdLib.partial_sort DonorInfo) Example.comm (Example.config 2)
           (Example.config 0) Example.donor_geometry Example.target_geometry
           0%Z 1 Example.halo_vertex).
  - reflexivity.
  - reflexivity.
Defined.

(** C10.  An interface whose donor and target markers both resolve to -1 on
    this rank fails the gate, and the body of the loop over the interfaces
    leaves the state as it was: no buffer is allocated, no collective is
    issued, the trace is the same, and the loop goes on with the interfaces
    that follow.  In a whole run no collective is ever issued for markers that
    are both -1. *)
Theorem absent_marker_skipped :
  forall partial_sort nDonor eps comm config_donor config_target
         donor_geometry target_geometry iMarkerInt st,
    Find_InterfaceMarker config_donor (Z.of_nat iMarkerInt) = (-1)%Z ->
    Find_InterfaceMarker config_target (Z.of_nat iMarkerInt) = (-1)%Z ->
    let body := fun st iMarkerInt =>
                  marker_body partial_sort nDonor eps comm config_donor config_target
                              donor_geometry target_geometry (Z.of_nat iMarkerInt) st in
    let run := Set_TransferCoeff partial_sort comm config_donor config_target
                                 donor_geometry target_geometry in
    CheckInterfaceBoundary (-1) (-1) = false /\
    body st iMarkerInt = st /\
    trace (thread (body st iMarkerInt)) = trace (thread st) /\
    target_vertices (body st iMarkerInt) = target_vertices st /\
    (forall rest, fold_left body (iMarkerInt :: rest) st = fold_left body rest st) /\
    (forall markDonor markTarget n,
        In (EvDetermine_ArraySize markDonor markTarget n) (trace (thread run)) \/
        In (EvCollect_VertexInfo markDonor markTarget n) (trace (thread run)) ->
        ~ (markDonor = (-1)%Z /\ markTarget = (-1)%Z)).
Proof.
  intros partial_sort nDonor eps comm config_donor config_target donor_geometry
         target_geometry iMarkerInt st Hd Ht body run.
  assert (Hskip : body st iMarkerInt = st).
  { unfold body. apply marker_body_skip. now rewrite Hd, Ht. }
  split; [reflexivity|]. split; [exact Hskip|].
  split; [now rewrite Hskip|]. split; [now rewrite Hskip|].
  split; [intros rest; cbn [fold_left]; now rewrite Hskip|].
  intros markDonor markTarget n Hin [-> ->].
  destruct (Set_TransferCoeff_invariant partial_sort comm config_donor config_target
              donor_geometry target_geometry) as (_ & _ & He).
  fold run in He. rewrite Forall_forall in He.
  destruct Hin as [Hin|Hin]; specialize (He _ Hin); discriminate.
Qed.

(** Interface 2 of the small interface is on no marker of this rank. *)
Lemma absent_marker_skipped_witness :
  Find_InterfaceMarker (Example.config 2) 2 = (-1)%Z /\
  trace (thread (marker_body (@StdLib.partial_sort DonorInfo) 2 passivedouble_epsilon
                   Example.comm (Example.config 2) (Example.config 0)
                   Example.donor_geometry Example.target_geometry (Z.of_nat 2)
                   (mkEngine (vertex Example.target_geometry)
                             (mkThread [] true true []))))
  = [].
Proof.
  split; [reflexivity|].
  apply (absent_marker_skipped
           (@StdLib.partial_sort DonorInfo) 2 passivedouble_epsilon Example.comm
           (Example.config 2) (Example.config 0) Example.donor_geometry
           Example.target_geometry 2
           (mkEngine (vertex Example.target_geometry) (mkThread [] true true []))).
  - reflexivity.
  - reflexivity.
Defined.

(* ================================================================== *)
(** * The loops as a whole *)

(** ** One vertex, one marker *)

Section Body.
Variable partial_sort :
  (DonorInfo -> DonorInfo -> bool) -> nat -> list DonorInfo -> list DonorInfo.
Hypothesis partial_sort_ok : partial_sort_conforms closer (partial_sort closer).
Variables (nDonor : nat) (eps : su2double) (nDim : nat) (G : Gathered).
Variables (target_node : nat -> CPoint).

(** The body on an owned vertex, inside the candidate list. *)
Lemma vertex_body_owned markTarget iVertexTarget target_vertex st :
  Domain (target_node (Node target_vertex)) = true ->
  length (donorInfo st) = nPossibleDonor G ->
  (Z.of_nat (nPossibleDonor G) <= INT_MAX)%Z ->
  nDonor <= nPossibleDonor G ->
  let r := vertex_body partial_sort nDonor eps nDim G target_node markTarget
                       iVertexTarget target_vertex st in
  fst r = transfer_record partial_sort nDonor eps nDim G target_node target_vertex /\
  in_bounds (snd r) = in_bounds st /\
  length (donorInfo (snd r)) = nPossibleDonor G.
Proof.
  intros owned resized counted Hk r.
  pose proof (vertex_body_spec partial_sort (conforms_length partial_sort partial_sort_ok)
                nDonor eps nDim G target_node markTarget iVertexTarget target_vertex st
                owned resized counted Hk) as Hr.
  cbv zeta in Hr. fold r in Hr. rewrite Hr. cbn [fst snd in_bounds donorInfo].
  split; [unfold transfer_record, stored; rewrite map_map; reflexivity|].
  split; [reflexivity|].
  rewrite length_app, length_map. unfold selected, rejected.
  rewrite <- length_app, firstn_skipn.
  rewrite (conforms_length partial_sort partial_sort_ok)
    by (rewrite length_candidates; exact Hk).
  apply length_candidates.
Qed.

(** The body never changes the size of the working array. *)
Lemma length_vertex_body markTarget iVertexTarget target_vertex st :
  length (donorInfo (snd (vertex_body partial_sort nDonor eps nDim G target_node
                                      markTarget iVertexTarget target_vertex st)))
  = length (donorInfo st).
Proof.
  unfold vertex_body.
  destruct (Domain (target_node (Node target_vertex))); cbn [negb]; [|reflexivity].
  pose proof (length_compute_all_distances nDim G
                (coord_ptr (target_node (Node target_vertex))) (donorInfo st)) as L1.
  destruct (compute_all_distances nDim G _ (donorInfo st)) as [[d1 i1] ok1].
  cbn [fst] in L1.
  assert (L2 : length (fst (find_k_closest partial_sort nDonor d1)) = length d1).
  { unfold find_k_closest. destruct (nDonor <=? length d1) eqn:E; [|reflexivity].
    apply Nat.leb_le in E. cbn [fst].
    now apply (conforms_length partial_sort partial_sort_ok). }
  destruct (find_k_closest partial_sort nDonor d1) as [d2 ok2]. cbn [fst] in L2.
  assert (L3 : length (fst (fst (fst (compute_numerators eps nDonor d2)))) = length d2).
  { unfold compute_numerators.
    generalize (seq 0 nDonor). intros l.
    assert (H : forall (acc : list DonorInfo * su2double * bool * bool),
               length (fst (fst (fst
                 (fold_left
                    (fun '(donorInfo, denom, ok, fin) iDonor =>
                       let '(d, okr) := vec_load donorInfo iDonor in
                       let '(w, finw) := su2_div 1%Q (dist d + eps)%Q in
                       let '(donorInfo', okw) :=
                         vec_store donorInfo iDonor (mkDonorInfo w (pidx d) (proc d)) in
                       (donorInfo', (denom + w)%Q, ok && okr && okw, fin && finw))
                    l acc))))
               = length (fst (fst (fst acc)))).
    { induction l as [|i l IH]; intros acc; cbn [fold_left]; [reflexivity|].
      rewrite IH. destruct acc as [[[v den] ok] fin]. cbn [fst].
      destruct (vec_load v i) as [d okr]. unfold su2_div, vec_store.
      destruct (i <? length v); cbn [fst]; [apply length_update | reflexivity]. }
    apply (H (d2, 0%Q, true, true)). }
  destruct (compute_numerators eps nDonor d2) as [[[d3 den] ok3] fin3].
  cbn [fst] in L3.
  destruct (set_coefficients nDonor d3 den _) as [[v ok4] fin4].
  cbn [snd donorInfo]. congruence.
Qed.



End Body.

Lemma length_resize n v : length (resize n v) = n.
Proof.
  unfold resize. rewrite length_app, length_firstn, repeat_length. lia.
Qed.

(** ** One interface *)

Section Interface.
Variable partial_sort :
  (DonorInfo -> DonorInfo -> bool) -> nat -> list DonorInfo -> list DonorInfo.
Variables (nDonor : nat) (eps : su2double) (comm : Communicator).
Variables (config_donor config_target : CConfig).
Variables (donor_geometry target_geometry : CGeometry).

(** The body of the loop over the interfaces for an interface that passes the
    test of line 74. *)
Lemma marker_body_pass iMarkerInt st :
  passes config_donor config_target iMarkerInt = true ->
  let markTarget := Find_InterfaceMarker config_target (Z.of_nat iMarkerInt) in
  let G := interface_buffers comm config_donor donor_geometry iMarkerInt in
  let th := mkThread (resize (nPossibleDonor G) (donorInfo (thread st)))
                     (in_bounds (thread st)) (finite (thread st))
                     (trace (thread st)
                      ++ opening comm config_donor config_target donor_geometry
                                 iMarkerInt) in
  let vs := if (markTarget =? -1)%Z then []
            else nth (Z.to_nat markTarget) (target_vertices st) [] in
  let r := vertex_loop partial_sort nDonor eps (nDim donor_geometry) G
                       (node target_geometry) markTarget 0 vs th in
  marker_body partial_sort nDonor eps comm config_donor config_target
              donor_geometry target_geometry (Z.of_nat iMarkerInt) st
  = mkEngine (if (markTarget =? -1)%Z then target_vertices st
              else update (target_vertices st) (Z.to_nat markTarget) (fst r))
             (log [EvDeleteBuffers] (snd r)).
Proof.
  intros H markTarget G th vs r. unfold marker_body.
  unfold passes in H. rewrite H. cbn [negb].
  fold markTarget.
  assert (Hvs : firstn (if (markTarget =? -1)%Z then 0
                        else length (nth (Z.to_nat markTarget) (target_vertices st) []))
                       (nth (Z.to_nat markTarget) (target_vertices st) []) = vs).
  { unfold vs. destruct (markTarget =? -1)%Z; [reflexivity | apply firstn_all]. }
  rewrite Hvs.
  change (vertex_loop partial_sort nDonor eps (nDim donor_geometry) _
                      (node target_geometry) markTarget 0 vs _) with r.
  destruct r as [vs' th']. reflexivity.
Qed.

(** An interface that fails the test is passed over. *)
Lemma marker_body_fail iMarkerInt st :
  passes config_donor config_target iMarkerInt = false ->
  marker_body partial_sort nDonor eps comm config_donor config_target
              donor_geometry target_geometry (Z.of_nat iMarkerInt) st = st.
Proof. intros H. apply marker_body_skip. exact H. Qed.

(** What an interface adds to the trace. *)
Lemma marker_body_trace iMarkerInt st :
  passes config_donor config_target iMarkerInt = true ->
  exists evs,
    trace (thread (marker_body partial_sort nDonor eps comm config_donor config_target
                               donor_geometry target_geometry (Z.of_nat iMarkerInt) st))
    = trace (thread st)
      ++ opening comm config_donor config_target donor_geometry iMarkerInt
      ++ evs ++ [EvDeleteBuffers] /\
    forallb is_vertex_event evs = true /\
    (Find_InterfaceMarker config_target (Z.of_nat iMarkerInt) = (-1)%Z -> evs = []).
Proof.
  intros H. rewrite (marker_body_pass iMarkerInt st H). cbv zeta.
  set (markTarget := Find_InterfaceMarker config_target (Z.of_nat iMarkerInt)).
  set (G := interface_buffers comm config_donor donor_geometry iMarkerInt).
  set (th := mkThread _ _ _ _).
  set (vs := if (markTarget =? -1)%Z then [] else _).
  destruct (vertex_loop_spec partial_sort nDonor eps (nDim donor_geometry) G
              (node target_geometry) markTarget vs 0 th) as (_ & _ & evs & Ht & He).
  exists evs. cbn [thread log trace]. rewrite Ht. cbn [trace th].
  rewrite <- !app_assoc. split; [reflexivity|]. split.
  - apply forallb_forall. intros e Hin.
    destruct (He e Hin) as (k & v & _ & _ & [-> | ->]); reflexivity.
  - intros E. destruct evs as [|e evs]; [reflexivity|]. exfalso.
    destruct (He e (or_introl eq_refl)) as (k & v & Hk & _).
    unfold vs in Hk. fold markTarget in E. rewrite E in Hk. cbn in Hk.
    destruct k; discriminate.
Qed.

(** An interface changes the vertices of its target marker only. *)
Lemma marker_body_frame iMarkerInt st :
  let markTarget := Find_InterfaceMarker config_target (Z.of_nat iMarkerInt) in
  let st' := marker_body partial_sort nDonor eps comm config_donor config_target
                         donor_geometry target_geometry (Z.of_nat iMarkerInt) st in
  length (target_vertices st') = length (target_vertices st) /\
  (forall iMarker,
      passes config_donor config_target iMarkerInt = false \/
      markTarget = (-1)%Z \/ iMarker <> Z.to_nat markTarget ->
      nth iMarker (target_vertices st') [] = nth iMarker (target_vertices st) []).
Proof.
  intros markTarget st'. unfold st'.
  destruct (passes config_donor config_target iMarkerInt) eqn:H;
    [|rewrite marker_body_fail by exact H; auto].
  rewrite (marker_body_pass iMarkerInt st H). cbv zeta. fold markTarget.
  cbn [target_vertices].
  destruct (markTarget =? -1)%Z eqn:E; [auto|].
  split; [apply length_update|].
  intros iMarker [Hm|[Hm|Hm]]; [discriminate | |].
  - apply Z.eqb_neq in E. contradiction.
  - apply nth_update_neq. congruence.
Qed.

Hypothesis partial_sort_ok : partial_sort_conforms closer (partial_sort closer).


End Interface.

(** ** Records *)



Section Records.
Variable partial_sort :
  (DonorInfo -> DonorInfo -> bool) -> nat -> list DonorInfo -> list DonorInfo.
Hypothesis partial_sort_ok : partial_sort_conforms closer (partial_sort closer).
Variables (nDonor : nat) (eps : su2double) (nDim : nat) (G : Gathered).
Variables (target_node : nat -> CPoint).

End Records.

(** ** The loop over the interfaces *)

Lemma fold_left_invariant {S A : Type} (P : S -> Prop) (f : S -> A -> S) (l : list A) :
  (forall s i, In i l -> P s -> P (f s i)) ->
  forall s, P s -> P (fold_left f l s).
Proof.
  induction l as [|i l IH]; intros H s Hs; cbn [fold_left]; [exact Hs|].
  apply IH.
  - intros s' j Hj. apply H. now right.
  - apply H; [now left | exact Hs].
Qed.


Lemma Set_TransferCoeff_fold partial_sort comm config_donor config_target
      donor_geometry target_geometry :
  Set_TransferCoeff partial_sort comm config_donor config_target
                    donor_geometry target_geometry
  = fold_left
      (fun st iMarkerInt =>
         marker_body partial_sort (Z.to_nat (nDonor_of config_donor))
                     passivedouble_epsilon comm config_donor config_target
                     donor_geometry target_geometry (Z.of_nat iMarkerInt) st)
      (interfaces config_donor)
      (mkEngine (vertex target_geometry) (mkThread [] true true [])).
Proof. reflexivity. Qed.


(* ================================================================== *)
(** * The run as a whole *)








(** ** The trace *)

Lemma run_phases_app (p : phase) (a b : list event) :
  run_phases p (a ++ b)
  = match run_phases p a with
    | Some q => run_phases q b
    | None => None
    end.
Proof.
  revert p; induction a as [|e a IH]; intros p; cbn [app run_phases]; [reflexivity|].
  destruct (phase_step p e); [apply IH | reflexivity].
Qed.

Lemma run_phases_vertex_events (evs : list event) :
  forallb is_vertex_event evs = true -> run_phases Collected evs = Some Collected.
Proof.
  induction evs as [|e evs IH]; cbn [forallb run_phases]; [reflexivity|].
  intros H. apply andb_true_iff in H. destruct H as [He H].
  destruct e; try discriminate; cbn [phase_step]; now apply IH.
Qed.

Lemma filter_collective_vertex_events (evs : list event) :
  forallb is_vertex_event evs = true -> filter is_collective evs = [].
Proof.
  induction evs as [|e evs IH]; cbn [forallb filter]; [reflexivity|].
  intros H. apply andb_true_iff in H. destruct H as [He H].
  destruct e; try discriminate; cbn [is_collective]; now apply IH.
Qed.

(** X6.  The events of a run follow, interface after interface, the order
    Determine_ArraySize, allocation of the four buffers, Collect_VertexInfo,
    scans and record allocations, release of the buffers: no buffer is
    allocated before the sizes are known, no vertex is scanned before the
    buffers are filled or after they are released, and when the run ends no
    buffer is left allocated. *)
Theorem run_protocol :
  forall partial_sort comm config_donor config_target donor_geometry target_geometry,
    run_phases Idle
      (trace (thread (Set_TransferCoeff partial_sort comm config_donor config_target
                                        donor_geometry target_geometry)))
    = Some Idle.
Proof.
  intros partial_sort comm config_donor config_target donor_geometry target_geometry.
  rewrite Set_TransferCoeff_fold.
  apply (fold_left_invariant
           (fun st => run_phases Idle (trace (thread st)) = Some Idle));
    [|reflexivity].
  intros s i _ Hs.
  destruct (passes config_donor config_target i) eqn:Hp;
    [|rewrite marker_body_fail by exact Hp; exact Hs].
  destruct (marker_body_trace partial_sort (Z.to_nat (nDonor_of config_donor))
              passivedouble_epsilon comm config_donor config_target donor_geometry
              target_geometry i s Hp) as (evs & -> & He & _).
  rewrite run_phases_app, Hs. unfold opening. cbn [app run_phases phase_step].
  rewrite run_phases_app, (run_phases_vertex_events evs He). reflexivity.
Qed.

(** X7.  The collectives that a run issues are, in this order, one
    Determine_ArraySize and one Collect_VertexInfo for every interface that
    passes the test of line 74, with the markers and the donor count of this
    rank (0 when the rank has no donor marker).  The sequence is decided by
    the two configurations and the donor geometry alone: the target
    geometry, the data received and the thread schedule have no part in
    it. *)
Theorem run_collectives :
  forall partial_sort comm config_donor config_target donor_geometry target_geometry,
    filter is_collective
      (trace (thread (Set_TransferCoeff partial_sort comm config_donor config_target
                                        donor_geometry target_geometry)))
    = flat_map
        (fun iMarkerInt =>
           let markDonor := Find_InterfaceMarker config_donor (Z.of_nat iMarkerInt) in
           let markTarget := Find_InterfaceMarker config_target (Z.of_nat iMarkerInt) in
           let nVertexDonor :=
             if (markDonor =? -1)%Z then 0 else GetnVertex donor_geometry markDonor in
           [EvDetermine_ArraySize markDonor markTarget nVertexDonor;
            EvCollect_VertexInfo markDonor markTarget nVertexDonor])
        (filter (passes config_donor config_target) (interfaces config_donor)).
Proof.
  intros partial_sort comm config_donor config_target donor_geometry target_geometry.
  rewrite Set_TransferCoeff_fold.
  set (calls := fun iMarkerInt : nat => _).
  set (body := fun (st : engine_state) (iMarkerInt : nat) => _).
  assert (H : forall l st,
             filter is_collective (trace (thread (fold_left body l st)))
             = filter is_collective (trace (thread st))
               ++ flat_map calls (filter (passes config_donor config_target) l)).
  { induction l as [|i l IH]; intros st; cbn [fold_left filter flat_map].
    - now rewrite app_nil_r.
    - rewrite IH. unfold body.
      destruct (passes config_donor config_target i) eqn:Hp.
      + destruct (marker_body_trace partial_sort (Z.to_nat (nDonor_of config_donor))
                    passivedouble_epsilon comm config_donor config_target
                    donor_geometry target_geometry i st Hp) as (evs & -> & He & _).
        rewrite !filter_app, (filter_collective_vertex_events evs He).
        cbn [flat_map]. rewrite <- !app_assoc. reflexivity.
      + rewrite marker_body_fail by exact Hp. reflexivity. }
  rewrite H. reflexivity.
Qed.

(** X10.  When no interface passes the test of line 74, and in particular
    when the donor zone has fewer than two interface markers, the run
    changes nothing: the vertices are those of the target geometry, the
    working array is empty and the trace holds no event. *)
Theorem run_without_interface :
  forall partial_sort comm config_donor config_target donor_geometry target_geometry,
    (forall iMarkerInt,
        In iMarkerInt (interfaces config_donor) ->
        passes config_donor config_target iMarkerInt = false) ->
    Set_TransferCoeff partial_sort comm config_donor config_target
                      donor_geometry target_geometry
    = mkEngine (vertex target_geometry) (mkThread [] true true []).
Proof.
  intros partial_sort comm config_donor config_target donor_geometry target_geometry H.
  rewrite Set_TransferCoeff_fold.
  apply (fold_left_invariant
           (fun st => st = mkEngine (vertex target_geometry) (mkThread [] true true [])));
    [|reflexivity].
  intros s i Hi ->. apply marker_body_fail. now apply H.
Qed.

Lemma run_without_interface_witness :
  Set_TransferCoeff (@StdLib.partial_sort DonorInfo) Example.comm
                    (mkCConfig 3 4 (fun _ => (-1)%Z)) (mkCConfig 0 4 (fun _ => (-1)%Z))
                    Example.donor_geometry Example.target_geometry
  = mkEngine (vertex Example.target_geometry) (mkThread [] true true []).
Proof.
  apply (run_without_interface (@StdLib.partial_sort DonorInfo) Example.comm
           (mkCConfig 3 4 (fun _ => (-1)%Z)) (mkCConfig 0 4 (fun _ => (-1)%Z))
           Example.donor_geometry Example.target_geometry).
  intros i [<-|[<-|[]]]; reflexivity.
Defined.

(** ** The vertices *)

(** X8.  A run neither adds nor removes a marker or a vertex, and never
    changes the node that a vertex stands for: all it writes are transfer
    records. *)
Theorem run_keeps_shape :
  forall partial_sort comm config_donor config_target donor_geometry target_geometry,
    let st := Set_TransferCoeff partial_sort comm config_donor config_target
                                donor_geometry target_geometry in
    length (target_vertices st) = length (vertex target_geometry) /\
    forall iMarker,
      length (nth iMarker (target_vertices st) [])
      = length (nth iMarker (vertex target_geometry) []) /\
      map Node (nth iMarker (target_vertices st) [])
      = map Node (nth iMarker (vertex target_geometry) []).
Proof.
  intros partial_sort comm config_donor config_target donor_geometry target_geometry st.
  split.
  - unfold st. rewrite Set_TransferCoeff_fold.
    apply (fold_left_invariant
             (fun st => length (target_vertices st) = length (vertex target_geometry)));
      [|reflexivity].
    intros s i _ Hs.
    destruct (marker_body_frame partial_sort (Z.to_nat (nDonor_of config_donor))
                passivedouble_epsilon comm config_donor config_target donor_geometry
                target_geometry i s) as [Hl _].
    congruence.
  - intros iMarker.
    destruct (Set_TransferCoeff_invariant partial_sort comm config_donor config_target
                donor_geometry target_geometry) as (Hn & _).
    fold st in Hn. specialize (Hn iMarker).
    split; [|exact Hn].
    apply (f_equal (@length nat)) in Hn. now rewrite !length_map in Hn.
Qed.

(** X9.  The vertices of a marker that is the target marker of no interface
    that passes the test are, after the run, what they were before it,
    records included. *)
Theorem run_leaves_other_markers :
  forall partial_sort comm config_donor config_target donor_geometry target_geometry
         iMarker,
    (forall iMarkerInt,
        In iMarkerInt (interfaces config_donor) ->
        passes config_donor config_target iMarkerInt = true ->
        Find_InterfaceMarker config_target (Z.of_nat iMarkerInt) = (-1)%Z \/
        iMarker <> Z.to_nat (Find_InterfaceMarker config_target (Z.of_nat iMarkerInt))) ->
    nth iMarker
        (target_vertices (Set_TransferCoeff partial_sort comm config_donor config_target
                                            donor_geometry target_geometry)) []
    = nth iMarker (vertex target_geometry) [].
Proof.
  intros partial_sort comm config_donor config_target donor_geometry target_geometry
         iMarker H.
  rewrite Set_TransferCoeff_fold.
  apply (fold_left_invariant
           (fun st => nth iMarker (target_vertices st) []
                      = nth iMarker (vertex target_geometry) []));
    [|reflexivity].
  intros s i Hi Hs.
  destruct (marker_body_frame partial_sort (Z.to_nat (nDonor_of config_donor))
              passivedouble_epsilon comm config_donor config_target donor_geometry
              target_geometry i s) as [_ Hf].
  rewrite Hf; [exact Hs|].
  destruct (passes config_donor config_target i) eqn:Hp; [|now left].
  right. now apply H.
Qed.

Lemma run_leaves_other_markers_witness :
  nth 1 (target_vertices
           (Set_TransferCoeff (@StdLib.partial_sort DonorInfo) Example.comm
              (Example.config 2) (Example.config 0) Example.donor_geometry
              (mkCGeometry 1 Example.target_node
                 [[Example.owned_vertex]; [Example.owned_vertex; Example.halo_vertex]])))
      []
  = [Example.owned_vertex; Example.halo_vertex].
Proof.
  apply (run_leaves_other_markers (@StdLib.partial_sort DonorInfo) Example.comm
           (Example.config 2) (Example.config 0) Example.donor_geometry
           (mkCGeometry 1 Example.target_node
              [[Example.owned_vertex]; [Example.owned_vertex; Example.halo_vertex]]) 1).
  intros i [<-|[<-|[]]] Hp.
  - right. discriminate.
  - left. reflexivity.
Defined.

(** X11.  On a rank that has no target marker for an interface that passes
    the test, the interface goes through both collectives, the allocation
    and the release of the buffers and the resizing of the working array,
    with no vertex scanned and no record written: the vertices and the flags
    are what they were. *)
Theorem donor_side_only :
  forall partial_sort nDonor eps comm config_donor config_target donor_geometry
         target_geometry iMarkerInt st,
    passes config_donor config_target iMarkerInt = true ->
    Find_InterfaceMarker config_target (Z.of_nat iMarkerInt) = (-1)%Z ->
    marker_body partial_sort nDonor eps comm config_donor config_target
                donor_geometry target_geometry (Z.of_nat iMarkerInt) st
    = mkEngine
        (target_vertices st)
        (mkThread
           (resize (nPossibleDonor
                      (interface_buffers comm config_donor donor_geometry iMarkerInt))
                   (donorInfo (thread st)))
           (in_bounds (thread st)) (finite (thread st))
           (trace (thread st)
            ++ opening comm config_donor config_target donor_geometry iMarkerInt
            ++ [EvDeleteBuffers])).
Proof.
  intros partial_sort nDonor eps comm config_donor config_target donor_geometry
         target_geometry iMarkerInt st Hp Hm.
  rewrite (marker_body_pass partial_sort nDonor eps comm config_donor config_target
             donor_geometry target_geometry iMarkerInt st Hp).
  cbv zeta. rewrite Hm. change ((-1 =? -1)%Z) with true. cbv iota.
  cbn [vertex_loop fst snd]. unfold log.
  cbn [donorInfo in_bounds finite trace]. now rewrite <- app_assoc.
Qed.

Lemma donor_side_only_witness :
  target_vertices
    (marker_body (@StdLib.partial_sort DonorInfo) 2 passivedouble_epsilon Example.comm
                 (Example.config 2) (mkCConfig 0 4 (fun _ => (-1)%Z))
                 Example.donor_geometry Example.target_geometry (Z.of_nat 1)
                 (mkEngine (vertex Example.target_geometry) (mkThread [] true true [])))
  = vertex Example.target_geometry.
Proof.
  rewrite (donor_side_only (@StdLib.partial_sort DonorInfo) 2 passivedouble_epsilon
             Example.comm (Example.config 2) (mkCConfig 0 4 (fun _ => (-1)%Z))
             Example.donor_geometry Example.target_geometry 1
             (mkEngine (vertex Example.target_geometry) (mkThread [] true true []))
             eq_refl eq_refl).
  reflexivity.
Defined.

(* ================================================================== *)
(** * The record of one vertex *)

Lemma NoDup_scan_order (G : Gathered) : NoDup (scan_order G).
Proof.
  pose proof (scan_order_sorted G) as Hs.
  induction Hs as [|s l Hs IH Hall]; constructor; [|exact IH].
  intros Hin. rewrite Forall_forall in Hall. specialize (Hall s Hin).
  unfold scan_before in Hall. lia.
Qed.

Section Independence.
Variable partial_sort :
  (DonorInfo -> DonorInfo -> bool) -> nat -> list DonorInfo -> list DonorInfo.
Hypothesis partial_sort_ok : partial_sort_conforms closer (partial_sort closer).
Variables (nDonor : nat) (eps : su2double) (nDim : nat) (G : Gathered).
Variables (target_node : nat -> CPoint).
Hypothesis counted : (Z.of_nat (nPossibleDonor G) <= INT_MAX)%Z.
Hypothesis enough : nDonor <= nPossibleDonor G.

(** What the body returns for a vertex, on any working array of
    [nPossibleDonor] elements. *)
Lemma vertex_body_fst markTarget iVertexTarget target_vertex st :
  length (donorInfo st) = nPossibleDonor G ->
  fst (vertex_body partial_sort nDonor eps nDim G target_node markTarget
                   iVertexTarget target_vertex st)
  = if Domain (target_node (Node target_vertex))
    then transfer_record partial_sort nDonor eps nDim G target_node target_vertex
    else target_vertex.
Proof.
  intros resized. destruct (Domain (target_node (Node target_vertex))) eqn:owned.
  - apply (vertex_body_owned partial_sort partial_sort_ok); assumption.
  - now rewrite vertex_body_halo by exact owned.
Qed.

Lemma vertex_loop_fst markTarget vs : forall iVertexTarget st,
  length (donorInfo st) = nPossibleDonor G ->
  fst (vertex_loop partial_sort nDonor eps nDim G target_node markTarget
                   iVertexTarget vs st)
  = map (fun v => if Domain (target_node (Node v))
                  then transfer_record partial_sort nDonor eps nDim G target_node v
                  else v) vs.
Proof.
  induction vs as [|tv vs IH]; intros i st resized; cbn [vertex_loop map];
    [reflexivity|].
  pose proof (vertex_body_fst markTarget i tv st resized) as Hv.
  pose proof (length_vertex_body partial_sort partial_sort_ok nDonor eps nDim G
                target_node markTarget i tv st) as L.
  destruct (vertex_body partial_sort nDonor eps nDim G target_node markTarget i tv st)
    as [v st1].
  cbn [fst snd] in Hv, L.
  specialize (IH (S i) st1 ltac:(congruence)).
  destruct (vertex_loop partial_sort nDonor eps nDim G target_node markTarget
                        (S i) vs st1) as [vs' st2].
  cbn [fst] in *. now rewrite Hv, IH.
Qed.
End Independence.

(** X1.  The record that the body writes for an owned vertex depends on the
    node of the vertex and on the gathered buffers only: neither what the
    working array held before (it is a thread's scratch array, reused from
    vertex to vertex and from interface to interface) nor the record that
    the vertex had before plays a part. *)
Theorem record_independent_of_scratch :
  forall partial_sort, partial_sort_conforms closer (partial_sort closer) ->
  forall nDonor eps nDim G target_node markTarget iVertexTarget v st
         markTarget' iVertexTarget' v' st',
    Domain (target_node (Node v)) = true ->
    Node v' = Node v ->
    length (donorInfo st) = nPossibleDonor G ->
    length (donorInfo st') = nPossibleDonor G ->
    (Z.of_nat (nPossibleDonor G) <= INT_MAX)%Z ->
    nDonor <= nPossibleDonor G ->
    fst (vertex_body partial_sort nDonor eps nDim G target_node markTarget
                     iVertexTarget v st)
    = fst (vertex_body partial_sort nDonor eps nDim G target_node markTarget'
                       iVertexTarget' v' st').
Proof.
  intros partial_sort ok nDonor eps nDim G target_node markTarget iVertexTarget v st
         markTarget' iVertexTarget' v' st' owned Hn L L' counted Hk.
  rewrite !(vertex_body_fst partial_sort ok nDonor eps nDim G target_node counted Hk)
    by assumption.
  rewrite Hn, owned. unfold transfer_record. now rewrite Hn.
Qed.

Lemma record_independent_of_scratch_witness :
  fst (Example.run 2 Example.owned_vertex)
  = fst (vertex_body (@StdLib.partial_sort DonorInfo) 2 passivedouble_epsilon 1
                     Example.G Example.target_node 5%Z 7
                     (mkCVertex 0 [Some 1%Z] [Some 1%Z] [Some 1%Q])
                     (mkThread [mkDonorInfo 5%Q 1%Z 1%Z; mkDonorInfo (-3)%Q 2%Z 0%Z;
                                mkDonorInfo 0%Q 3%Z 1%Z] true true [])).
Proof.
  apply (record_independent_of_scratch (@StdLib.partial_sort DonorInfo)
           heap_partial_sort_conforms 2 passivedouble_epsilon 1 Example.G
           Example.target_node 0%Z 0 Example.owned_vertex (Example.thread_of 3)
           5%Z 7 (mkCVertex 0 [Some 1%Z] [Some 1%Z] [Some 1%Q])).
  - reflexivity.
  - reflexivity.
  - reflexivity.
  - reflexivity.
  - vm_compute. discriminate.
  - vm_compute. lia.
Defined.

(** X2.  The loop over the target vertices gives every vertex what the body
    gives that vertex alone, on any working array of [nPossibleDonor]
    elements: the passes of the loop do not depend on one another, so the
    records are the same in whatever order the vertices are taken and
    whichever thread's array is used. *)
Theorem vertex_loop_independent :
  forall partial_sort, partial_sort_conforms closer (partial_sort closer) ->
  forall nDonor eps nDim G target_node markTarget iVertexTarget vs st
         markTarget' iVertexTarget' st',
    length (donorInfo st) = nPossibleDonor G ->
    length (donorInfo st') = nPossibleDonor G ->
    (Z.of_nat (nPossibleDonor G) <= INT_MAX)%Z ->
    nDonor <= nPossibleDonor G ->
    fst (vertex_loop partial_sort nDonor eps nDim G target_node markTarget
                     iVertexTarget vs st)
    = map (fun v => fst (vertex_body partial_sort nDonor eps nDim G target_node
                                     markTarget' iVertexTarget' v st')) vs.
Proof.
  intros partial_sort ok nDonor eps nDim G target_node markTarget iVertexTarget vs st
         markTarget' iVertexTarget' st' L L' counted Hk.
  rewrite (vertex_loop_fst partial_sort ok nDonor eps nDim G target_node counted Hk)
    by exact L.
  apply map_ext. intros v.
  now rewrite (vertex_body_fst partial_sort ok nDonor eps nDim G target_node counted Hk)
    by exact L'.
Qed.

Lemma vertex_loop_independent_witness :
  fst (vertex_loop (@StdLib.partial_sort DonorInfo) 2 passivedouble_epsilon 1
                   Example.G Example.target_node 0%Z 0
                   [Example.owned_vertex; Example.halo_vertex; Example.owned_vertex]
                   (Example.thread_of 3))
  = map (fun v => fst (Example.run 2 v))
        [Example.owned_vertex; Example.halo_vertex; Example.owned_vertex].
Proof.
  apply (vertex_loop_independent (@StdLib.partial_sort DonorInfo)
           heap_partial_sort_conforms 2 passivedouble_epsilon 1 Example.G
           Example.target_node 0%Z 0
           [Example.owned_vertex; Example.halo_vertex; Example.owned_vertex]
           (Example.thread_of 3) 0%Z 0 (Example.thread_of 3)).
  - reflexivity.
  - reflexivity.
  - vm_compute. discriminate.
  - vm_compute. lia.
Defined.

(** X12.  The [nDonor] entries of a record come from [nDonor] different
    slots of the scan: no slot is used twice.  For each of them the
    processor written is the rank of the slot, below [nProcessor], and the
    donor point written is the gathered global index of the slot reduced
    modulo 2^32, the width of the field [pidx]: an index of 2^32 or more is
    not written as it is. *)
Theorem record_slots :
  forall partial_sort, partial_sort_conforms closer (partial_sort closer) ->
  forall nDonor eps nDim G target_node markTarget iVertexTarget target_vertex st,
    Domain (target_node (Node target_vertex)) = true ->
    length (donorInfo st) = nPossibleDonor G ->
    (Z.of_nat (nPossibleDonor G) <= INT_MAX)%Z ->
    nDonor <= nPossibleDonor G ->
    let r := vertex_body partial_sort nDonor eps nDim G target_node markTarget
                         iVertexTarget target_vertex st in
    exists slots,
      length slots = nDonor /\ NoDup slots /\
      (forall s, In s slots -> In s (scan_order G) /\ fst s < nProcessor G) /\
      Donor_Points (fst r)
      = map (fun s => Some (nth (slot_index G s) (Buffer_Receive_GlobalPoint G) 0
                            mod 4294967296)%Z) slots /\
      Donor_Proc (fst r) = map (fun s => Some (Z.of_nat (fst s))) slots /\
      Forall (fun o => exists z, o = Some z /\ (0 <= z < 4294967296)%Z)
             (Donor_Points (fst r)).
Proof.
  intros partial_sort ok nDonor eps nDim G target_node markTarget iVertexTarget
         target_vertex st owned resized counted Hk r.
  destruct (vertex_body_owned partial_sort ok nDonor eps nDim G target_node markTarget
              iVertexTarget target_vertex st owned resized counted Hk) as (Hr & _).
  fold r in Hr. rewrite Hr. unfold transfer_record.
  cbn [Donor_Points Donor_Proc].
  set (target := target_node (Node target_vertex)).
  destruct (selection_spec partial_sort ok nDonor nDim G target Hk) as (P & L & _).
  set (sel := selected partial_sort nDonor nDim G target) in *.
  set (rej := rejected partial_sort nDonor nDim G target) in *.
  unfold candidates in P. apply Permutation_sym in P.
  apply Permutation_map_inv in P. destruct P as (l3 & E & P).
  symmetry in E. apply map_eq_app in E. destruct E as (l1 & l2 & -> & E1 & E2).
  exists l1.
  assert (Hl : length l1 = nDonor) by (rewrite <- L, <- E1; now rewrite length_map).
  assert (Hd : NoDup (l1 ++ l2))
    by (apply (Permutation_NoDup P), NoDup_scan_order).
  split; [exact Hl|]. split; [apply (NoDup_app_remove_r _ _ Hd)|].
  split; [|split; [|split]].
  - intros s Hs.
    assert (Hin : In s (scan_order G)).
    { apply (Permutation_in _ (Permutation_sym P)). apply in_or_app. now left. }
    split; [exact Hin|]. destruct s as [p j]. now apply in_scan_order in Hin.
  - rewrite <- E1, map_map. reflexivity.
  - rewrite <- E1, map_map. reflexivity.
  - rewrite <- E1, map_map. apply Forall_map, Forall_forall. intros s _.
    eexists. split; [reflexivity|]. cbn [candidate pidx]. unfold to_unsigned.
    apply Z.mod_pos_bound. reflexivity.
Qed.

Lemma record_slots_witness :
  Forall (fun o => exists z, o = Some z /\ (0 <= z < 4294967296)%Z)
         (Donor_Points (fst (Example.run 2 Example.owned_vertex))).
Proof.
  destruct (record_slots (@StdLib.partial_sort DonorInfo) heap_partial_sort_conforms
              2 passivedouble_epsilon 1 Example.G Example.target_node 0%Z 0
              Example.owned_vertex (Example.thread_of 3)
              eq_refl eq_refl ltac:(vm_compute; discriminate) ltac:(vm_compute; lia))
    as (slots & _ & _ & _ & _ & _ & H).
  exact H.
Defined.

(** X13.  Of the gathered global indices the body reads the residues modulo
    2^32 only: with the indices replaced by others of the same residues,
    every vertex gets the same record and the thread is left in the same
    state.  Two donor points whose global indices differ by a multiple of
    2^32 cannot be told apart in a record. *)
Theorem global_index_modulo :
  forall partial_sort nDonor eps nDim G points target_node markTarget iVertexTarget
         target_vertex st,
    (forall idx, (nth idx points 0 mod 4294967296
                  = nth idx (Buffer_Receive_GlobalPoint G) 0 mod 4294967296)%Z) ->
    vertex_body partial_sort nDonor eps nDim
                (mkGathered (Buffer_Receive_nVertex_Donor G) (MaxLocalVertex_Donor G)
                            (Buffer_Receive_Coord G) points)
                target_node markTarget iVertexTarget target_vertex st
    = vertex_body partial_sort nDonor eps nDim G target_node markTarget iVertexTarget
                  target_vertex st.
Proof.
  intros partial_sort nDonor eps nDim G points target_node markTarget iVertexTarget
         target_vertex st H.
  unfold vertex_body.
  destruct (Domain (target_node (Node target_vertex))); cbn [negb]; [|reflexivity].
  rewrite !compute_all_distances_fold.
  replace (candidates nDim (mkGathered _ _ _ points) _)
    with (candidates nDim G (coord_ptr (target_node (Node target_vertex))));
    [reflexivity|].
  unfold candidates. apply map_ext. intros [p j].
  unfold candidate, to_unsigned.
  cbn [MaxLocalVertex_Donor Buffer_Receive_GlobalPoint Buffer_Receive_Coord fst snd].
  now rewrite H.
Qed.

Lemma global_index_modulo_witness :
  vertex_body (@StdLib.partial_sort DonorInfo) 2 passivedouble_epsilon 1
              (mkGathered (Buffer_Receive_nVertex_Donor Example.G)
                          (MaxLocalVertex_Donor Example.G)
                          (Buffer_Receive_Coord Example.G)
                          [4294967306; 11; 12; 4294967295]%Z)
              Example.target_node 0%Z 0 Example.owned_vertex (Example.thread_of 3)
  = Example.run 2 Example.owned_vertex.
Proof.
  apply (global_index_modulo (@StdLib.partial_sort DonorInfo) 2 passivedouble_epsilon 1
           Example.G [4294967306; 11; 12; 4294967295]%Z Example.target_node 0%Z 0
           Example.owned_vertex (Example.thread_of 3)).
  intros [|[|[|[|idx]]]]; try reflexivity; destruct idx; reflexivity.
Defined.





(* ================================================================== *)
(** * Too few candidates *)

Lemma fold_left_reaches_inv {S A : Type} (I P : S -> Prop) (f : S -> A -> S)
      (l : list A) i :
  In i l ->
  (forall s j, In j l -> I s -> I (f s j)) ->
  (forall s, I s -> P (f s i)) ->
  (forall s j, In j l -> P s -> P (f s j)) ->
  forall s, I s -> P (fold_left f l s).
Proof.
  induction l as [|j l IH]; intros Hi HI He Hp s Hs; [contradiction|].
  cbn [fold_left]. destruct Hi as [->|Hi].
  - apply fold_left_invariant; [|now apply He].
    intros s' k Hk. apply Hp. now right.
  - apply IH; [exact Hi | | exact He | |].
    + intros s' k Hk. apply HI. now right.
    + intros s' k Hk. apply Hp. now right.
    + apply HI; [now left | exact Hs].
Qed.

(** An access outside the working array is never forgotten. *)
Lemma vertex_body_in_bounds_mono partial_sort nDonor eps nDim G target_node markTarget
      iVertexTarget target_vertex st :
  in_bounds (snd (vertex_body partial_sort nDonor eps nDim G target_node markTarget
                              iVertexTarget target_vertex st)) = true ->
  in_bounds st = true.
Proof.
  unfold vertex_body.
  destruct (Domain (target_node (Node target_vertex))); cbn [negb]; [|auto].
  destruct (compute_all_distances nDim G _ (donorInfo st)) as [[d1 i1] ok1].
  destruct (find_k_closest partial_sort nDonor d1) as [d2 ok2].
  destruct (compute_numerators eps nDonor d2) as [[[d3 den] ok3] fin3].
  destruct (set_coefficients nDonor d3 den _) as [[v ok4] fin4].
  cbn [snd in_bounds]. intros H.
  repeat (apply andb_true_iff in H; destruct H as [H _]). exact H.
Qed.

Lemma vertex_loop_in_bounds_mono partial_sort nDonor eps nDim G target_node markTarget
      vs : forall iVertexTarget st,
  in_bounds (snd (vertex_loop partial_sort nDonor eps nDim G target_node markTarget
                              iVertexTarget vs st)) = true ->
  in_bounds st = true.
Proof.
  induction vs as [|tv vs IH]; intros i st; cbn [vertex_loop]; [auto|].
  pose proof (vertex_body_in_bounds_mono partial_sort nDonor eps nDim G target_node
                markTarget i tv st) as Hv.
  destruct (vertex_body partial_sort nDonor eps nDim G target_node markTarget i tv st)
    as [v st1].
  specialize (IH (S i) st1).
  destruct (vertex_loop partial_sort nDonor eps nDim G target_node markTarget
                        (S i) vs st1) as [vs' st2].
  cbn [snd] in *. auto.
Qed.

Section TooFew.
Variable partial_sort :
  (DonorInfo -> DonorInfo -> bool) -> nat -> list DonorInfo -> list DonorInfo.
Hypothesis partial_sort_ok : partial_sort_conforms closer (partial_sort closer).
Variables (nDonor : nat) (eps : su2double).

(** An owned vertex among those of the loop, and fewer candidates than
    donors asked for: the loop leaves the working array. *)
Lemma vertex_loop_out nDim G target_node markTarget vs : forall iVertexTarget st k v,
  length (donorInfo st) = nPossibleDonor G ->
  (Z.of_nat (nPossibleDonor G) <= INT_MAX)%Z ->
  nPossibleDonor G < nDonor ->
  nth_error vs k = Some v ->
  Domain (target_node (Node v)) = true ->
  in_bounds (snd (vertex_loop partial_sort nDonor eps nDim G target_node markTarget
                              iVertexTarget vs st)) = false.
Proof.
  induction vs as [|tv vs IH]; intros i st k v resized counted Hk Hv owned;
    [destruct k; discriminate|].
  cbn [vertex_loop].
  pose proof (length_vertex_body partial_sort partial_sort_ok nDonor eps nDim G
                target_node markTarget i tv st) as L.
  destruct k as [|k]; cbn [nth_error] in Hv.
  - inversion Hv; subst tv.
    pose proof (vertex_body_in_bounds partial_sort partial_sort_ok nDonor eps nDim G
                  target_node markTarget i v st owned resized counted) as Hb.
    replace (nDonor <=? nPossibleDonor G) with false in Hb
      by (symmetry; apply Nat.leb_gt; exact Hk).
    rewrite andb_false_r in Hb.
    destruct (vertex_body partial_sort nDonor eps nDim G target_node markTarget i v st)
      as [v1 st1].
    cbn [snd] in Hb.
    pose proof (vertex_loop_in_bounds_mono partial_sort nDonor eps nDim G target_node
                  markTarget vs (S i) st1) as Hm.
    destruct (vertex_loop partial_sort nDonor eps nDim G target_node markTarget
                          (S i) vs st1) as [vs' st2].
    cbn [snd] in *. destruct (in_bounds st2); [|reflexivity].
    specialize (Hm eq_refl). congruence.
  - destruct (vertex_body partial_sort nDonor eps nDim G target_node markTarget i tv st)
      as [v1 st1].
    cbn [snd] in L.
    specialize (IH (S i) st1 k v ltac:(congruence) counted Hk Hv owned).
    destruct (vertex_loop partial_sort nDonor eps nDim G target_node markTarget
                          (S i) vs st1) as [vs' st2].
    exact IH.
Qed.
End TooFew.

(** X15.  Nothing in the run checks that there are donors.  If an interface
    that passes the test has gathered fewer candidates than the [nDonor]
    asked for, none at all for instance, and this rank owns a vertex of its
    target marker, the run accesses the working array outside its bounds. *)
Theorem run_out_of_bounds :
  forall partial_sort, partial_sort_conforms closer (partial_sort closer) ->
  forall comm config_donor config_target donor_geometry target_geometry
         iMarkerInt iVertexTarget v,
    let markTarget := Find_InterfaceMarker config_target (Z.of_nat iMarkerInt) in
    let G := interface_buffers comm config_donor donor_geometry iMarkerInt in
    In iMarkerInt (interfaces config_donor) ->
    passes config_donor config_target iMarkerInt = true ->
    markTarget <> (-1)%Z ->
    vertex_at (vertex target_geometry) markTarget iVertexTarget = Some v ->
    Domain (node target_geometry (Node v)) = true ->
    nPossibleDonor G < Z.to_nat (nDonor_of config_donor) ->
    (Z.of_nat (nPossibleDonor G) <= INT_MAX)%Z ->
    in_bounds (thread (Set_TransferCoeff partial_sort comm config_donor config_target
                                         donor_geometry target_geometry)) = false.
Proof.
  intros partial_sort ok comm config_donor config_target donor_geometry
         target_geometry iMarkerInt iVertexTarget v markTarget G Hin Hp Hm Hv Hd Hk
         counted.
  rewrite Set_TransferCoeff_fold.
  set (nDonor := Z.to_nat (nDonor_of config_donor)) in *.
  assert (Hmono : forall s j,
            in_bounds (thread (marker_body partial_sort nDonor passivedouble_epsilon
                                 comm config_donor config_target donor_geometry
                                 target_geometry (Z.of_nat j) s)) = true ->
            in_bounds (thread s) = true).
  { intros s j.
    destruct (passes config_donor config_target j) eqn:Hpj;
      [|now rewrite marker_body_fail by exact Hpj].
    rewrite (marker_body_pass partial_sort nDonor passivedouble_epsilon comm
               config_donor config_target donor_geometry target_geometry j s Hpj).
    cbv zeta. cbn [thread log in_bounds]. intros H.
    apply vertex_loop_in_bounds_mono in H. exact H. }
  apply (fold_left_reaches_inv
           (run_invariant target_geometry nDonor)
           (fun s => in_bounds (thread s) = false)
           _ _ iMarkerInt Hin).
  - intros s j _. apply marker_body_invariant.
  - intros s (Hn & _).
    rewrite (marker_body_pass partial_sort nDonor passivedouble_epsilon comm
               config_donor config_target donor_geometry target_geometry
               iMarkerInt s Hp).
    cbv zeta. fold markTarget G. cbn [thread log in_bounds].
    replace (markTarget =? -1)%Z with false by (symmetry; now apply Z.eqb_neq).
    unfold vertex_at in Hv.
    destruct (map_nth_error_Node _ _ iVertexTarget v
                (eq_sym (Hn (Z.to_nat markTarget))) Hv) as (v' & Hv' & Hn').
    apply (vertex_loop_out partial_sort ok nDonor passivedouble_epsilon
             (nDim donor_geometry) G (node target_geometry) markTarget _ 0 _
             iVertexTarget v').
    + apply length_resize.
    + exact counted.
    + exact Hk.
    + exact Hv'.
    + now rewrite Hn'.
  - intros s j _ Hs.
    destruct (in_bounds (thread (marker_body partial_sort nDonor passivedouble_epsilon
                                   comm config_donor config_target donor_geometry
                                   target_geometry (Z.of_nat j) s))) eqn:E;
      [|reflexivity].
    apply Hmono in E. congruence.
  - split; [reflexivity|]. split; [auto | constructor].
Qed.

(** No rank has a donor point for interface 1, and two donors are asked
    for. *)
Lemma run_out_of_bounds_witness :
  nPossibleDonor (interface_buffers (mkComm 0 (fun _ => [[]; []]) (fun _ => 0%Q)
                                            (fun _ => (-1)%Z))
                                    (Example.config 2)
                                    (mkCGeometry 1 Example.target_node [[]]) 1) = 0 /\
  in_bounds (thread (Set_TransferCoeff (@StdLib.partial_sort DonorInfo)
                       (mkComm 0 (fun _ => [[]; []]) (fun _ => 0%Q) (fun _ => (-1)%Z))
                       (Example.config 2) (Example.config 0)
                       (mkCGeometry 1 Example.target_node [[]])
                       Example.target_geometry)) = false.
Proof.
  split; [reflexivity|].
  apply (run_out_of_bounds (@StdLib.partial_sort DonorInfo) heap_partial_sort_conforms
           (mkComm 0 (fun _ => [[]; []]) (fun _ => 0%Q) (fun _ => (-1)%Z))
           (Example.config 2) (Example.config 0)
           (mkCGeometry 1 Example.target_node [[]]) Example.target_geometry
           1 0 Example.owned_vertex).
  - left. reflexivity.
  - reflexivity.
  - discriminate.
  - reflexivity.
  - reflexivity.
  - vm_compute. lia.
  - vm_compute. discriminate.
Defined.

(* ================================================================== *)
(** * The trace, event by event *)




(* ================================================================== *)
(** * The free-stream state of the SST solver *)

(** The rows of variables are a container in the sense of [CVariable]. *)
Lemma Matrix_CVariable : CVariable Matrix.t.
Proof.
  refine (Build_CVariable Matrix.t Matrix.holds Matrix.GetSolution Matrix.SetSolution
            _ _ _).
  - intros m i k x j l. unfold Matrix.holds, Matrix.SetSolution.
    rewrite nth_error_update.
    destruct (i =? j) eqn:E; cbn [andb]; [|reflexivity].
    apply Nat.eqb_eq in E. subst j.
    destruct (i <? length m) eqn:L; [|reflexivity].
    apply Nat.ltb_lt in L.
    rewrite (nth_error_nth' m [] L), length_update. reflexivity.
  - intros m i k x Hh. unfold Matrix.holds, Matrix.GetSolution, Matrix.SetSolution in *.
    destruct (nth_error m i) as [row|] eqn:E; [|discriminate].
    apply Nat.ltb_lt in Hh.
    assert (L : i < length m) by (apply nth_error_Some; congruence).
    rewrite nth_update_eq by exact L.
    rewrite (nth_error_nth m i [] E). now apply nth_update_eq.
  - intros m i k x j l Hh Hne.
    unfold Matrix.holds, Matrix.GetSolution, Matrix.SetSolution in *.
    destruct (nth_error m i) as [row|] eqn:E; [|discriminate].
    assert (L : i < length m) by (apply nth_error_Some; congruence).
    destruct (Nat.eq_dec i j) as [<-|Hij].
    + rewrite nth_update_eq by exact L.
      apply nth_update_neq. intros ->. now apply Hne.
    + now rewrite nth_update_neq by exact Hij.
Defined.

Section FreeStream.
Context {V : Type} `{CVariable V}.

(** The loop of [SetFreeStream_Solution] over the points
    [start, ..., start + n - 1]. *)
Lemma SetFreeStream_loop (n : nat) : forall (solver : CTurbSSTSolver V) (start : nat),
  (forall iPoint, start <= iPoint < start + n ->
     holds (nodes solver) iPoint 0 = true /\ holds (nodes solver) iPoint 1 = true) ->
  let solver' :=
    fold_left
      (fun solver iPoint =>
         let solver := nodes_SetSolution solver iPoint 0 (kine_Inf solver) in
         nodes_SetSolution solver iPoint 1 (omega_Inf solver))
      (seq start n) solver in
  constants solver' = constants solver /\
  kine_Inf solver' = kine_Inf solver /\
  omega_Inf solver' = omega_Inf solver /\
  nPoint solver' = nPoint solver /\
  (forall iPoint iVar,
      holds (nodes solver') iPoint iVar = holds (nodes solver) iPoint iVar) /\
  (forall iPoint iVar,
      GetSolution (nodes solver') iPoint iVar
      = if (start <=? iPoint) && (iPoint <? start + n) && (iVar <? 2)
        then if iVar =? 0 then kine_Inf solver else omega_Inf solver
        else GetSolution (nodes solver) iPoint iVar).
Proof.
  induction n as [|n IH]; intros solver start Hh; cbn [seq fold_left].
  - repeat split; try reflexivity. intros i k.
    destruct (start <=? i) eqn:E1, (i <? start + 0) eqn:E2; try reflexivity.
    apply Nat.leb_le in E1. apply Nat.ltb_lt in E2. lia.
  - match goal with
    | |- context [fold_left ?f (seq (S start) n) ?x] => set (s1 := x)
    end.
    assert (Es1 : s1 = nodes_SetSolution
                         (nodes_SetSolution solver start 0 (kine_Inf solver)) start 1
                         (omega_Inf solver)) by reflexivity.
    destruct (Hh start ltac:(lia)) as [H0 H1].
    assert (Hs1 : forall i k, holds (nodes s1) i k = holds (nodes solver) i k).
    { intros i k. rewrite Es1. unfold nodes_SetSolution. cbn [nodes].
      now rewrite !holds_SetSolution. }
    pose proof (IH s1 (S start)) as IH1. cbv zeta in IH1.
    destruct IH1 as (Hc & Hk & Ho & Hn & Hhs & Hg).
    { intros i Hi. rewrite !Hs1. apply Hh. lia. }
    split; [rewrite Hc, Es1; reflexivity|]. split; [rewrite Hk, Es1; reflexivity|].
    split; [rewrite Ho, Es1; reflexivity|]. split; [rewrite Hn, Es1; reflexivity|].
    split; [intros i k; now rewrite Hhs, Hs1|].
    intros i k. rewrite Hg.
    replace (kine_Inf s1) with (kine_Inf solver) by (rewrite Es1; reflexivity).
    replace (omega_Inf s1) with (omega_Inf solver) by (rewrite Es1; reflexivity).
    destruct (Nat.eq_dec i start) as [->|Hi].
    + replace (S start <=? start) with false by (symmetry; apply Nat.leb_gt; lia).
      rewrite Nat.leb_refl.
      replace (start <? start + S n) with true by (symmetry; apply Nat.ltb_lt; lia).
      cbn [andb]. rewrite Es1. unfold nodes_SetSolution. cbn [nodes omega_Inf kine_Inf].
      destruct k as [|[|k]]; cbn [Nat.ltb Nat.leb Nat.eqb].
      * rewrite GetSolution_SetSolution_other;
          [apply GetSolution_SetSolution, H0 | now rewrite holds_SetSolution
          | intros E; inversion E].
      * apply GetSolution_SetSolution. now rewrite holds_SetSolution.
      * rewrite !GetSolution_SetSolution_other;
          [reflexivity | exact H0 | intros E; inversion E
          | now rewrite holds_SetSolution | intros E; inversion E].
    + assert (Hg1 : GetSolution (nodes s1) i k = GetSolution (nodes solver) i k).
      { rewrite Es1. unfold nodes_SetSolution. cbn [nodes].
        rewrite !GetSolution_SetSolution_other;
          [reflexivity | exact H0 | intros E; inversion E; contradiction
          | now rewrite holds_SetSolution | intros E; inversion E; contradiction]. }
      rewrite Hg1.
      destruct (start <=? i) eqn:E1, (S start <=? i) eqn:E2; try reflexivity.
      * replace (i <? S start + n) with (i <? start + S n)
          by (f_equal; lia). reflexivity.
      * apply Nat.leb_le in E1. apply Nat.leb_gt in E2. lia.
      * apply Nat.leb_gt in E1. apply Nat.leb_le in E2. lia.
Qed.

(** What [SetFreeStream_Solution] leaves in the solver. *)
Lemma SetFreeStream_Solution_spec (solver : CTurbSSTSolver V) (config : CConfig) :
  (forall iPoint, iPoint < nPoint solver ->
     holds (nodes solver) iPoint 0 = true /\ holds (nodes solver) iPoint 1 = true) ->
  let solver' := SetFreeStream_Solution solver config in
  constants solver' = constants solver /\
  kine_Inf solver' = kine_Inf solver /\
  omega_Inf solver' = omega_Inf solver /\
  nPoint solver' = nPoint solver /\
  (forall iPoint iVar,
      holds (nodes solver') iPoint iVar = holds (nodes solver) iPoint iVar) /\
  (forall iPoint iVar,
      GetSolution (nodes solver') iPoint iVar
      = if (iPoint <? nPoint solver) && (iVar <? 2)
        then if iVar =? 0 then kine_Inf solver else omega_Inf solver
        else GetSolution (nodes solver) iPoint iVar).
Proof.
  intros Hh. unfold SetFreeStream_Solution.
  destruct (SetFreeStream_loop (nPoint solver) solver 0) as (Hc & Hk & Ho & Hn & Hhs & Hg).
  { intros i Hi. apply Hh. lia. }
  repeat split; assumption.
Qed.
End FreeStream.

(** X17.  After [SetFreeStream_Solution], on a solver whose container holds
    the first two variables of its [nPoint] points, every point has the
    free-stream kinetic energy in variable 0 and the free-stream dissipation
    in variable 1; every other entry of the container is what it was, and so
    are the free-stream values, the constants and the number of points that
    the getters return. *)
Theorem free_stream_everywhere :
  forall (V : Type) (container : CVariable V) (solver : CTurbSSTSolver V)
         (config : CConfig),
    (forall iPoint, iPoint < nPoint solver ->
       holds (nodes solver) iPoint 0 = true /\ holds (nodes solver) iPoint 1 = true) ->
    let solver' := SetFreeStream_Solution solver config in
    (forall iPoint, iPoint < nPoint solver ->
       GetSolution (nodes solver') iPoint 0 = GetTke_Inf solver /\
       GetSolution (nodes solver') iPoint 1 = GetOmega_Inf solver) /\
    (forall iPoint iVar, nPoint solver <= iPoint \/ 2 <= iVar ->
       GetSolution (nodes solver') iPoint iVar = GetSolution (nodes solver) iPoint iVar) /\
    GetTke_Inf solver' = GetTke_Inf solver /\
    GetOmega_Inf solver' = GetOmega_Inf solver /\
    GetConstants solver' = GetConstants solver /\
    nPoint solver' = nPoint solver.
Proof.
  intros V container solver config Hh solver'.
  destruct (SetFreeStream_Solution_spec solver config Hh)
    as (Hc & Hk & Ho & Hn & _ & Hg).
  fold solver' in Hc, Hk, Ho, Hn, Hg.
  split; [|split; [|repeat split; assumption]].
  - intros i Hi. rewrite !Hg.
    replace (i <? nPoint solver) with true by (symmetry; apply Nat.ltb_lt; lia).
    split; reflexivity.
  - intros i k Hik. rewrite Hg.
    destruct (i <? nPoint solver) eqn:E1, (k <? 2) eqn:E2; try reflexivity.
    apply Nat.ltb_lt in E1, E2. lia.
Qed.

Lemma free_stream_everywhere_witness :
  nodes (SetFreeStream_Solution (H := Matrix_CVariable)
           (mkCTurbSSTSolver [] (1 # 2)%Q 3%Q 2
                             [[0%Q; 0%Q; 7%Q]; [5%Q; 5%Q; 7%Q]; [9%Q; 9%Q; 7%Q]])
           (Example.config 1))
  = [[(1 # 2)%Q; 3%Q; 7%Q]; [(1 # 2)%Q; 3%Q; 7%Q]; [9%Q; 9%Q; 7%Q]] /\
  Matrix.GetSolution
    (nodes (SetFreeStream_Solution (H := Matrix_CVariable)
              (mkCTurbSSTSolver [] (1 # 2)%Q 3%Q 2
                                [[0%Q; 0%Q; 7%Q]; [5%Q; 5%Q; 7%Q]; [9%Q; 9%Q; 7%Q]])
              (Example.config 1))) 1 1
  = 3%Q.
Proof.
  split; [reflexivity|].
  destruct (free_stream_everywhere Matrix.t Matrix_CVariable
              (mkCTurbSSTSolver [] (1 # 2)%Q 3%Q 2
                                [[0%Q; 0%Q; 7%Q]; [5%Q; 5%Q; 7%Q]; [9%Q; 9%Q; 7%Q]])
              (Example.config 1)) as (Hfs & _).
  - intros [|[|i]] Hlt; [split; reflexivity | split; reflexivity | cbn in Hlt; lia].
  - apply (Hfs 1). cbn. lia.
Defined.

(** X18.  [SetFreeStream_Solution] neither reads its argument nor depends
    on what the container held in the entries it writes: called again, with
    whatever configuration, it leaves every entry of the container as the
    first call left it. *)
Theorem free_stream_idempotent :
  forall (V : Type) (container : CVariable V) (solver : CTurbSSTSolver V)
         (config config' : CConfig),
    (forall iPoint, iPoint < nPoint solver ->
       holds (nodes solver) iPoint 0 = true /\ holds (nodes solver) iPoint 1 = true) ->
    forall iPoint iVar,
      GetSolution
        (nodes (SetFreeStream_Solution (SetFreeStream_Solution solver config) config'))
        iPoint iVar
      = GetSolution (nodes (SetFreeStream_Solution solver config)) iPoint iVar.
Proof.
  intros V container solver config config' Hh i k.
  destruct (SetFreeStream_Solution_spec solver config Hh)
    as (_ & Hk & Ho & Hn & Hhs & Hg).
  destruct (SetFreeStream_Solution_spec (SetFreeStream_Solution solver config) config')
    as (_ & _ & _ & _ & _ & Hg2).
  { intros j Hj. rewrite !Hhs. apply Hh. now rewrite <- Hn. }
  rewrite Hg2, Hn, Hk, Ho, Hg.
  destruct ((i <? nPoint solver) && (k <? 2)); reflexivity.
Qed.

Lemma free_stream_idempotent_witness :
  Matrix.GetSolution
    (nodes (SetFreeStream_Solution (H := Matrix_CVariable)
              (SetFreeStream_Solution (H := Matrix_CVariable)
                 (mkCTurbSSTSolver [] (1 # 2)%Q 3%Q 2
                                   [[0%Q; 0%Q]; [5%Q; 5%Q]; [9%Q; 9%Q]])
                 (Example.config 1))
              (Example.config 2))) 1 1
  = Matrix.GetSolution
      (nodes (SetFreeStream_Solution (H := Matrix_CVariable)
                (mkCTurbSSTSolver [] (1 # 2)%Q 3%Q 2
                                  [[0%Q; 0%Q]; [5%Q; 5%Q]; [9%Q; 9%Q]])
                (Example.config 1))) 1 1.
Proof.
  apply (free_stream_idempotent Matrix.t Matrix_CVariable
           (mkCTurbSSTSolver [] (1 # 2)%Q 3%Q 2 [[0%Q; 0%Q]; [5%Q; 5%Q]; [9%Q; 9%Q]])
           (Example.config 1) (Example.config 2)).
  intros [|[|i]] Hlt; [split; reflexivity | split; reflexivity | cbn in Hlt; lia].
Defined.

(* ================================================================== *)
(** * The library routine *)

(** X19.  [std::partial_sort] as libstdc++ implements it (heap selection
    followed by a heap sort) meets the standard's contract for every
    comparison that is a strict weak ordering: called with
    [middle <= last - first] it permutes the range, leaves its [middle] first
    elements sorted, and leaves no element behind that precedes one of
    them. *)
Theorem heap_partial_sort_meets_standard :
  forall (A : Type) (comp : A -> A -> bool),
    (forall x y, comp x y = true -> comp y x = false) ->
    (forall x y z, comp y x = false -> comp z y = false -> comp z x = false) ->
    forall middle a,
      middle <= length a ->
      Permutation a (StdLib.partial_sort comp middle a) /\
      sorted_wrt comp (firstn middle (StdLib.partial_sort comp middle a)) /\
      Forall (fun y => Forall (fun x => comp y x = false)
                              (firstn middle (StdLib.partial_sort comp middle a)))
             (skipn middle (StdLib.partial_sort comp middle a)) /\
      length (StdLib.partial_sort comp middle a) = length a.
Proof.
  intros A comp Hasym Htrans middle a Hlen.
  destruct (heap_partial_sort_post comp Hasym Htrans middle a Hlen) as (P & S & F).
  repeat split; try assumption. symmetry. apply (Permutation_length P).
Qed.

Lemma heap_partial_sort_meets_standard_witness :
  StdLib.partial_sort Nat.ltb 2 [5; 3; 9; 1; 4] = [1; 3; 9; 5; 4] /\
  Permutation [5; 3; 9; 1; 4] (StdLib.partial_sort Nat.ltb 2 [5; 3; 9; 1; 4]).
Proof.
  split; [reflexivity|].
  apply (heap_partial_sort_meets_standard nat Nat.ltb).
  - intros x y H. apply Nat.ltb_lt in H. apply Nat.ltb_ge. lia.
  - intros x y z H1 H2. apply Nat.ltb_ge in H1, H2. apply Nat.ltb_ge. lia.
  - cbn. lia.
Defined.
